(** * LightsOff: the puzzle engine of App.tsx

    A shallow embedding of the engine functions of the React application
    ([toggleCellAndNeighbors], [createSolvableBoard] with its local
    [scrambleToggle], and the click handler [handleCellClick]) together with
    the properties the specification states about them.

    Conventions of the embedding.
    - A JavaScript [number] used as a coordinate, a size or a counter is a
      [Z]; the properties below are about integer values.
    - A [CellState[][]] is a list of rows; reading [b[r][c].isOn] where
      [b[r]] or [b[r][c]] is [undefined] throws a [TypeError], which the
      embedding keeps as [Throw TypeError].
    - [Math.random] is a generator with hidden state; the embedding passes
      that state explicitly.
    - The recursion of [createSolvableBoard] is bounded by the call stack:
      when it is exhausted the engine throws a [RangeError]. *)

From Stdlib Require Import ZArith Bool List Lia QArith Qround.
From stdpp Require Import base list numbers.

Local Open Scope Z_scope.

(** ** Completion of a call: a value or a thrown error *)

Inductive JsError : Type := TypeError | RangeError.

Inductive Result (A : Type) : Type :=
| Ok (a : A)
| Throw (e : JsError).

Arguments Ok {A} a.
Arguments Throw {A} e.

#[global] Instance Result_ret : MRet Result := fun A a => Ok a.

#[global] Instance Result_bind : MBind Result := fun A B f m =>
  match m with
  | Ok a => f a
  | Throw e => Throw e
  end.

(** ** Data model *)

Record CellState : Type := { isOn : bool }.

Abbreviation Board := (list (list CellState)).

Inductive Difficulty : Type := easy | medium | hard.

(** [b.map(r => r.map(c => ({ ...c })))]: fresh rows holding fresh cells. *)
Definition deepCopy (b : Board) : Board :=
  map (fun r => map (fun c => {| isOn := isOn c |}) r) b.

(** ** The move primitive *)

(** The inner closure [toggle] of [toggleCellAndNeighbors], with the board it
    mutates passed in and handed back. *)
Definition toggle (boardSize : Z) (r c : Z) (newBoard : Board) : Result Board :=
  if (r >=? 0) && (r <? boardSize) && (c >=? 0) && (c <? boardSize) then
    match newBoard !! Z.to_nat r with
    | None => Throw TypeError
    | Some cells =>
        match cells !! Z.to_nat c with
        | None => Throw TypeError
        | Some cell =>
            Ok (<[Z.to_nat r := <[Z.to_nat c := {| isOn := negb (isOn cell) |}]> cells]>
                  newBoard)
        end
    end
  else Ok newBoard.

Definition toggleCellAndNeighbors (row col : Z) (currentBoard : Board) (boardSize : Z)
  : Result Board :=
  let newBoard := deepCopy currentBoard in
  b1 ← toggle boardSize row col newBoard;
  b2 ← toggle boardSize (row - 1) col b1;
  b3 ← toggle boardSize (row + 1) col b2;
  b4 ← toggle boardSize row (col - 1) b3;
  b5 ← toggle boardSize row (col + 1) b4;
  mret b5.

(** [b.flat().every(cell => !cell.isOn)] *)
Definition everyOff (b : Board) : bool :=
  forallb (fun cell => negb (isOn cell)) (concat b).

(** ** The puzzle generator *)

(** [Array(boardSize).fill(null).map(() => Array(boardSize).fill(null).map(() => ({ isOn: false })))];
    [Array(n)] throws a [RangeError] for a negative length. *)
Definition emptyBoard (boardSize : Z) : Result Board :=
  if boardSize <? 0 then Throw RangeError
  else Ok (replicate (Z.to_nat boardSize)
             (replicate (Z.to_nat boardSize) {| isOn := false |})).

(** The [switch] on the difficulty.  [boardSize * 1.5] and [boardSize * 2.5]
    are exact in double precision for the integers in question, so the
    products are taken in [Q]. *)
Definition scrambleMovesCount (boardSize : Z) (difficulty : Difficulty) : Z :=
  match difficulty with
  | easy => Qfloor (inject_Z boardSize * 1.5)
  | hard => boardSize * boardSize
  | medium => Qfloor (inject_Z boardSize * 2.5)
  end.

Section Generator.

(** The hidden state of [Math.random], and one evaluation of
    [Math.floor(Math.random() * boardSize)] from it. *)
Variable Rng : Type.
Variable randomIndex : Z -> Rng -> Z * Rng.

(** The local closure [scrambleToggle] of [createSolvableBoard]; it
    captures [boardSize]. *)
Definition scrambleToggle (boardSize : Z) (r c : Z) (b : Board) : Result Board :=
  let nextBoard := deepCopy b in
  b1 ← toggle boardSize r c nextBoard;
  b2 ← toggle boardSize (r - 1) c b1;
  b3 ← toggle boardSize (r + 1) c b2;
  b4 ← toggle boardSize r (c - 1) b3;
  b5 ← toggle boardSize r (c + 1) b4;
  mret b5.

(** The [for] loop, [iters] iterations left. *)
Fixpoint scrambleLoop (boardSize : Z) (iters : nat) (boardState : Board) (g : Rng)
  : Result (Board * Rng) :=
  match iters with
  | O => Ok (boardState, g)
  | S iters' =>
      let '(randRow, g1) := randomIndex boardSize g in
      let '(randCol, g2) := randomIndex boardSize g1 in
      boardState' ← scrambleToggle boardSize randRow randCol boardState;
      scrambleLoop boardSize iters' boardState' g2
  end.

(** One pass through the body of [createSolvableBoard] up to the test. *)
Definition scrambleOnce (boardSize : Z) (difficulty : Difficulty) (g : Rng)
  : Result (Board * Rng) :=
  boardState ← emptyBoard boardSize;
  scrambleLoop boardSize (Z.to_nat (scrambleMovesCount boardSize difficulty))
    boardState g.

(** [stack] is the number of nested activations the call stack still
    allows. *)
Fixpoint createSolvableBoard (stack : nat) (boardSize : Z) (difficulty : Difficulty)
    (g : Rng) : Result (Board * Rng) :=
  match stack with
  | O => Throw RangeError
  | S stack' =>
      '(boardState, g') ← scrambleOnce boardSize difficulty g;
      if everyOff boardState
      then createSolvableBoard stack' boardSize difficulty g'
      else Ok (boardState, g')
  end.

End Generator.

Arguments scrambleToggle boardSize r c b : simpl never.
Arguments scrambleLoop {Rng} randomIndex boardSize iters boardState g.
Arguments scrambleOnce {Rng} randomIndex boardSize difficulty g.
Arguments createSolvableBoard {Rng} randomIndex stack boardSize difficulty g.

(** ** The click handler *)

(** The state hooks of [App] that the handler reads and writes.  The [key]
    of [lastClick] is a clock reading ([Date.now()]) and is left out. *)
Record AppState : Type := {
  boardSize : Z;
  difficulty : Difficulty;
  board : Board;
  moves : Z;
  hasWon : bool;
  lastClick : option (Z * Z)
}.

(** [handleCellClick] as it runs when its call of [playSound] returns, which
    it always does with no audio context or with the sound switched off.
    That call sets no hook, but it stands between the move and the state
    setters and can throw; the handler with the call is
    [handleCellClickWithSound] below. *)
Definition handleCellClick (row col : Z) (s : AppState) : Result AppState :=
  if hasWon s then Ok s
  else
    newBoard ← toggleCellAndNeighbors row col (board s) (boardSize s);
    let isWinningState := everyOff newBoard in
    Ok {| boardSize := boardSize s;
          difficulty := difficulty s;
          board := newBoard;
          moves := moves s + 1;
          hasWon := if isWinningState then true else hasWon s;
          lastClick := Some (row, col) |}.

(** * Vocabulary of the properties *)

(** ** Observing a board *)

(** The board is square of side [N]: [N] rows of [N] cells each. *)
Definition square (N : Z) (b : Board) : Prop :=
  length b = Z.to_nat N ∧ Forall (λ cells, length cells = Z.to_nat N) b.

(** [b[i][j].isOn], read only at positions of the grid. *)
Definition cellOn (b : Board) (i j : Z) : bool :=
  match b !! Z.to_nat i with
  | Some cells =>
      match cells !! Z.to_nat j with
      | Some cell => isOn cell
      | None => false
      end
  | None => false
  end.

(** The plus pattern of a target: the target and its four orthogonal
    neighbours. *)
Definition inPlus (row col i j : Z) : bool :=
  (i =? row) && (j =? col) || (i =? row - 1) && (j =? col)
  || (i =? row + 1) && (j =? col) || (i =? row) && (j =? col - 1)
  || (i =? row) && (j =? col + 1).

Definition allOff (N : Z) : Board :=
  replicate (Z.to_nat N) (replicate (Z.to_nat N) {| isOn := false |}).

(** ** Sequences of moves *)

(** A sequence of moves, applied from left to right. *)
Fixpoint applyMoves (N : Z) (ms : list (Z * Z)) (b : Board) : Result Board :=
  match ms with
  | [] => Ok b
  | (r, c) :: ms' => b' ← toggleCellAndNeighbors r c b N; applyMoves N ms' b'
  end.

(** Whether the cell [(i, j)] lies in the plus pattern of an odd number of
    the moves [ms]. *)
Fixpoint hitOdd (ms : list (Z * Z)) (i j : Z) : bool :=
  match ms with
  | [] => false
  | (r, c) :: ms' => xorb (inPlus r c i j) (hitOdd ms' i j)
  end.

(** How often the coordinate [(r, c)] occurs in [ms]. *)
Fixpoint occurrences (r c : Z) (ms : list (Z * Z)) : nat :=
  match ms with
  | [] => O
  | (r', c') :: ms' =>
      if (r' =? r) && (c' =? c) then S (occurrences r c ms') else occurrences r c ms'
  end.

Definition validTarget (N : Z) (m : Z * Z) : Prop :=
  0 <= m.1 < N ∧ 0 <= m.2 < N.

(** ** Positions of the grid *)

#[global] Instance validTarget_dec N m : Decision (validTarget N m).
Proof. unfold validTarget. apply _. Defined.

(** The positions of the grid, row by row. *)
Definition positions (N : Z) : list (Z * Z) :=
  i ← seqZ 0 N; j ← seqZ 0 N; [(i, j)].

(** The positions at which two boards differ. *)
Definition flippedCells (N : Z) (b b' : Board) : list (Z * Z) :=
  filter (λ p, cellOn b' p.1 p.2 ≠ cellOn b p.1 p.2) (positions N).

(** The cells of the plus pattern of [(row, col)] that lie on the grid. *)
Definition plusCells (N row col : Z) : list (Z * Z) :=
  filter (validTarget N)
    [(row, col); (row - 1, col); (row + 1, col); (row, col - 1); (row, col + 1)].

(** ** The random source *)

Section Draws.

Context {Rng : Type} (randomIndex : Z → Rng → Z * Rng).

(** The coordinates the loop draws in [k] iterations from the state [g],
    and the state it leaves. *)
Fixpoint draws (N : Z) (k : nat) (g : Rng) : list (Z * Z) :=
  match k with
  | O => []
  | S k' =>
      let '(randRow, g1) := randomIndex N g in
      let '(randCol, g2) := randomIndex N g1 in
      (randRow, randCol) :: draws N k' g2
  end.

Fixpoint rngAfter (N : Z) (k : nat) (g : Rng) : Rng :=
  match k with
  | O => g
  | S k' =>
      let '(_, g1) := randomIndex N g in
      let '(_, g2) := randomIndex N g1 in
      rngAfter N k' g2
  end.

(** The state of the source when the attempt number [k] (from 0) of a call
    of [createSolvableBoard] starts: each earlier attempt has drawn its
    [scrambleMovesCount] coordinates. *)
Fixpoint attemptState (N : Z) (d : Difficulty) (k : nat) (g : Rng) : Rng :=
  match k with
  | O => g
  | S k' =>
      attemptState N d k' (rngAfter N (Z.to_nat (scrambleMovesCount N d)) g)
  end.

(** What the code relies on from [Math.floor(Math.random() * n)]: it lies
    in [0, n).  ([Math.random()] is below 1, and the rounded product of a
    double below 1 with an integer [n >= 1] is below [n].) *)
Definition inRangeSource : Prop :=
  ∀ n g, 1 <= n → 0 <= (randomIndex n g).1 < n.

End Draws.

(** A linear congruential generator, as a random source to run the
    generator on. *)
Definition lcgIndex (n : Z) (seed : Z) : Z * Z :=
  ((seed `div` 65536) `mod` n, (seed * 1103515245 + 12345) `mod` 2147483648).

(** ** A sample session *)

(** A 3 x 3 session in progress: the plus around the centre is lit. *)
Definition sessionPlus : AppState :=
  {| boardSize := 3;
     difficulty := medium;
     board := [ [ {| isOn := false |}; {| isOn := true |}; {| isOn := false |} ];
                [ {| isOn := true |}; {| isOn := true |}; {| isOn := true |} ];
                [ {| isOn := false |}; {| isOn := true |}; {| isOn := false |} ] ];
     moves := 0;
     hasWon := false;
     lastClick := None |}.

(** * The rest of the application *)

(** ** Reading a board the JavaScript way *)

(** [a[i]] for an integer [i]: [None] is [undefined] (negative indices
    included). *)
Definition jsIndex {A : Type} (a : list A) (i : Z) : option A :=
  if i <? 0 then None else a !! Z.to_nat i.

(** [b[i][j].isOn]: a [TypeError] when [b[i]] or [b[i][j]] is [undefined]. *)
Definition readIsOn (b : Board) (i j : Z) : Result bool :=
  match jsIndex b i with
  | None => Throw TypeError
  | Some cells =>
      match jsIndex cells j with
      | None => Throw TypeError
      | Some cell => Ok (isOn cell)
      end
  end.

(** ** The click sound *)

(** [if (guard && b[i][j].isOn) count++], the read made only under the
    guard. *)
Definition countIf (guard : bool) (b : Board) (i j : Z) (count : Z) : Result Z :=
  if guard then
    on ← readIsOn b i j;
    Ok (if on : bool then count + 1 else count)
  else Ok count.

(** The local function [getActiveNeighbors] of [playSound]. *)
Definition getActiveNeighbors (r c : Z) (b : Board) (size : Z) : Result Z :=
  let count := 0 in
  count ← countIf (r >? 0) b (r - 1) c count;
  count ← countIf (r <? size - 1) b (r + 1) c count;
  count ← countIf (c >? 0) b r (c - 1) count;
  count ← countIf (c <? size - 1) b r (c + 1) count;
  Ok count.

Definition pentatonicSteps : list Z := [0; 2; 4; 7; 9; 12; 14; 16; 19; 21].

(** [Math.round(((pentatonicSteps.length - 1) * cellIndex) / (totalCells - 1))].
    A zero divisor gives [NaN] or an infinity, kept as [None]; otherwise the
    quotient is taken in [Q] (for the board sizes a browser can show, the
    double quotient rounds to the same integer), and [Math.round] is the
    floor of its argument plus one half. *)
Definition scaleIndex (boardSize row col : Z) : option Z :=
  let totalCells := boardSize * boardSize in
  let cellIndex := row * boardSize + col in
  if totalCells - 1 =? 0 then None
  else
    Some (Qfloor (inject_Z ((Z.of_nat (length pentatonicSteps) - 1) * cellIndex)
                  / inject_Z (totalCells - 1) + 0.5)).

(** [pentatonicSteps[scaleIndex]] *)
Definition note (boardSize row col : Z) : option Z :=
  i ← scaleIndex boardSize row col; jsIndex pentatonicSteps i.

(** The [Waveform] type; its value ['square'] is [squareWave] here. *)
Inductive Waveform : Type := sine | squareWave | sawtooth | triangle.

Record SoundSettings : Type := {
  enabled : bool;
  waveform : Waveform;
  interactive : bool
}.

Section Sound.

(** The Web Audio calls of the click branch (oscillators, gains, filter):
    they belong to the browser, and may themselves throw.  They are handed
    the settings, the note, and in the interactive case the number of lit
    cells and of lit neighbours. *)
Variable webAudio : SoundSettings → option Z → option (nat * Z) → Result unit.

(** [playSound('click', audioCtx, { board, row, col, boardSize, soundSettings })];
    [audioCtx] tells whether there is an audio context. *)
Definition playSoundClick (audioCtx : bool) (board : Board) (row col boardSize : Z)
    (soundSettings : SoundSettings) : Result unit :=
  if negb audioCtx || negb (enabled soundSettings) then Ok tt
  else
    let n := note boardSize row col in
    if interactive soundSettings then
      let activeCells := length (List.filter isOn (concat board)) in
      activeNeighbors ← getActiveNeighbors row col board boardSize;
      webAudio soundSettings n (Some (activeCells, activeNeighbors))
    else webAudio soundSettings n None.

(** [handleCellClick] with its call of [playSound], which stands between the
    move and the state setters. *)
Definition handleCellClickWithSound (audioCtx : bool) (soundSettings : SoundSettings)
    (row col : Z) (s : AppState) : Result AppState :=
  if hasWon s then Ok s
  else
    newBoard ← toggleCellAndNeighbors row col (board s) (boardSize s);
    _ ← playSoundClick audioCtx newBoard row col (boardSize s) soundSettings;
    let isWinningState := everyOff newBoard in
    Ok {| boardSize := boardSize s;
          difficulty := difficulty s;
          board := newBoard;
          moves := moves s + 1;
          hasWon := if isWinningState then true else hasWon s;
          lastClick := Some (row, col) |}.

(** The hooks after a click.  Every call of the handler that can throw (the
    move, the sound) comes before its first state setter, so a throw leaves
    the hooks as they were. *)
Definition sessionAfterClick (audioCtx : bool) (soundSettings : SoundSettings)
    (row col : Z) (s : AppState) : AppState :=
  match handleCellClickWithSound audioCtx soundSettings row col s with
  | Ok s' => s'
  | Throw _ => s
  end.

End Sound.

(** The contribution of the position [(i, j)] to a count of lit cells: 1
    when it is on the grid and lit, 0 otherwise. *)
Definition litAt (N : Z) (b : Board) (i j : Z) : Z :=
  if bool_decide (validTarget N (i, j)) && cellOn b i j then 1 else 0.

(** A browser whose Web Audio calls all succeed, to run the handler on. *)
Definition webAudioOk : SoundSettings → option Z → option (nat * Z) → Result unit :=
  λ _ _ _, Ok tt.

(** The initial sound settings of [App], and the same with the sound
    switched off. *)
Definition soundOn : SoundSettings :=
  {| enabled := true; waveform := sine; interactive := true |}.

Definition soundOff : SoundSettings :=
  {| enabled := false; waveform := sine; interactive := true |}.

(** ** Reset and its confirmation dialog *)

#[global] Instance Difficulty_eq_dec : EqDecision Difficulty.
Proof. solve_decision. Defined.

(** The state hooks of [App] that the reset functions read and write: those
    of [AppState] and the two hooks of the confirmation dialog.  A pending
    configuration [{size?, difficulty?}] is a pair of optional values. *)
Record AppHooks : Type := {
  game : AppState;
  showResetConfirm : bool;
  pendingResetConfig : option (option Z * option Difficulty)
}.

(** The truth value of an optional number: [undefined] and [0] are falsy. *)
Definition truthySize (newSize : option Z) : option Z :=
  match newSize with
  | Some n => if n =? 0 then None else Some n
  | None => None
  end.

Section Reset.

Context {Rng : Type} (randomIndex : Z → Rng → Z * Rng) (stack : nat).

(** [executeReset].  The reset sound is made of browser calls on constants
    and is left out.  When [createSolvableBoard] throws, the error comes out
    of the function and no later setter runs; [setBoardSize] and
    [setDifficulty] have run by then, and what they leave behind is not part
    of a [Throw]: the functions below describe the application up to its
    first throw. *)
Definition executeReset (newSize : option Z) (newDifficulty : option Difficulty)
    (a : AppHooks) (g : Rng) : Result (AppHooks * Rng) :=
  let s := game a in
  let sizeToUse := default (boardSize s) (truthySize newSize) in
  let difficultyToUse := default (difficulty s) newDifficulty in
  let boardSize' :=
    match truthySize newSize with
    | Some n => if bool_decide (n ≠ boardSize s) then n else boardSize s
    | None => boardSize s
    end in
  let difficulty' :=
    match newDifficulty with
    | Some d => if bool_decide (d ≠ difficulty s) then d else difficulty s
    | None => difficulty s
    end in
  '(b, g') ← createSolvableBoard randomIndex stack sizeToUse difficultyToUse g;
  Ok ({| game := {| boardSize := boardSize';
                    difficulty := difficulty';
                    board := b;
                    moves := 0;
                    hasWon := false;
                    lastClick := lastClick s |};
         showResetConfirm := false;
         pendingResetConfig := None |}, g').

(** [resetGame] *)
Definition resetGame (newSize : option Z) (newDifficulty : option Difficulty)
    (a : AppHooks) (g : Rng) : Result (AppHooks * Rng) :=
  if (moves (game a) >? 0) && negb (hasWon (game a)) then
    Ok ({| game := game a;
           showResetConfirm := true;
           pendingResetConfig := Some (newSize, newDifficulty) |}, g)
  else executeReset newSize newDifficulty a g.

(** The Confirm button of the dialog:
    [executeReset(pendingResetConfig?.size, pendingResetConfig?.difficulty)]. *)
Definition confirmReset (a : AppHooks) (g : Rng) : Result (AppHooks * Rng) :=
  executeReset (pendingResetConfig a ≫= fst) (pendingResetConfig a ≫= snd) a g.

(** The Cancel button of the dialog. *)
Definition cancelReset (a : AppHooks) : AppHooks :=
  {| game := game a; showResetConfirm := false; pendingResetConfig := None |}.

(** The initial values of the hooks. *)
Definition initialApp (g : Rng) : Result (AppHooks * Rng) :=
  '(b, g') ← createSolvableBoard randomIndex stack 3 medium g;
  Ok ({| game := {| boardSize := 3;
                    difficulty := medium;
                    board := b;
                    moves := 0;
                    hasWon := false;
                    lastClick := None |};
         showResetConfirm := false;
         pendingResetConfig := None |}, g').

(** What the user can do, with the audio environment of a click. *)
Inductive Action : Type :=
| CellClick (audioCtx : bool) (soundSettings : SoundSettings) (row col : Z)
| ResetGame (newSize : option Z) (newDifficulty : option Difficulty)
| ConfirmReset
| CancelReset.

Variable webAudio : SoundSettings → option Z → option (nat * Z) → Result unit.

Definition step (act : Action) (a : AppHooks) (g : Rng) : Result (AppHooks * Rng) :=
  match act with
  | CellClick audioCtx soundSettings row col =>
      s' ← handleCellClickWithSound webAudio audioCtx soundSettings row col (game a);
      Ok ({| game := s';
             showResetConfirm := showResetConfirm a;
             pendingResetConfig := pendingResetConfig a |}, g)
  | ResetGame newSize newDifficulty => resetGame newSize newDifficulty a g
  | ConfirmReset => confirmReset a g
  | CancelReset => Ok (cancelReset a, g)
  end.

(** A sequence of actions, up to the first one that throws. *)
Fixpoint run (acts : list Action) (a : AppHooks) (g : Rng) : Result (AppHooks * Rng) :=
  match acts with
  | [] => Ok (a, g)
  | act :: acts' => '(a', g') ← step act a g; run acts' a' g'
  end.

End Reset.

(** What every state of the application satisfies. *)
Definition appInvariant (a : AppHooks) : Prop :=
  let s := game a in
  1 <= boardSize s ∧
  square (boardSize s) (board s) ∧
  hasWon s = everyOff (board s) ∧
  0 <= moves s ∧
  (hasWon s = true → 1 <= moves s) ∧
  (showResetConfirm a = true ↔ is_Some (pendingResetConfig a)).

(** ** The board component *)

(** [getCellColor]: [colors[(r + c) % colors.length]].  The remainder of
    JavaScript has the sign of the dividend; with an empty palette it is
    [NaN] and the result [undefined]. *)
Definition getCellColor {A : Type} (r c : Z) (colors : list A) : option A :=
  if Z.of_nat (length colors) =? 0 then None
  else jsIndex colors (Z.rem (r + c) (Z.of_nat (length colors))).

(** The cells [ClickEffects] marks as hit: the [locations] for which the
    [map] does not return [null], in their order. *)
Definition clickHits (boardSize row col : Z) : list (Z * Z) :=
  List.filter
    (λ '(r, c), (r >=? 0) && (r <? boardSize) && (c >=? 0) && (c <? boardSize))
    [(row, col); (row - 1, col); (row + 1, col); (row, col - 1); (row, col + 1)].

(** The coordinates the cell buttons of [GameBoard] are rendered with, and
    pass to [onCellClick]:
    [board.map((row, rowIndex) => row.map((cell, colIndex) => ...))]. *)
Definition gridCells (board : Board) : list (Z * Z) :=
  concat (imap (λ rowIndex row,
                  imap (λ colIndex _, (Z.of_nat rowIndex, Z.of_nat colIndex)) row)
            board).

(** A connecting line, named as its [key]: [h-r-c] joins the cell [(r, c)]
    and its right neighbour, [v-r-c] the cell and the one below it. *)
Inductive Pathway : Type :=
| horizontal (r c : Z)
| vertical (r c : Z).

(** [board[r].length] *)
Definition rowLength (board : Board) (r : Z) : Result Z :=
  match jsIndex board r with
  | None => Throw TypeError
  | Some cells => Ok (Z.of_nat (length cells))
  end.

(** A [for] loop from [i], [n] iterations, that collects what its body
    pushes. *)
Fixpoint forLoop {A : Type} (body : Z → Result (list A)) (i : Z) (n : nat)
  : Result (list A) :=
  match n with
  | O => Ok []
  | S n' => xs ← body i; ys ← forLoop body (i + 1) n'; Ok (xs ++ ys)
  end.

(** The body of the inner loop of [GameBoard]: what the cell [(r, c)] pushes
    on [pathways]. *)
Definition cellPathways (board : Board) (boardSize r c : Z) : Result (list Pathway) :=
  on ← readIsOn board r c;
  if on : bool then
    len ← rowLength board r;
    h ← (if c + 1 <? len then
           right ← readIsOn board r (c + 1);
           Ok (if right : bool then [horizontal r c] else [])
         else Ok []);
    v ← (if r + 1 <? boardSize then
           below ← readIsOn board (r + 1) c;
           Ok (if below : bool then [vertical r c] else [])
         else Ok []);
    Ok (h ++ v)
  else Ok [].

(** The [pathways] that [GameBoard] draws. *)
Definition pathways (board : Board) (isWon : bool) : Result (list Pathway) :=
  if isWon then Ok []
  else
    let boardSize := Z.of_nat (length board) in
    forLoop (λ r,
               len ← rowLength board r;
               forLoop (λ c, cellPathways board boardSize r c) 0 (Z.to_nat len))
      0 (length board).

(** The lines that start at the cell [(r, c)] of a square board of side
    [N]: to the right and downwards, when both ends are lit. *)
Definition pathAt (N : Z) (b : Board) (r c : Z) : list Pathway :=
  if cellOn b r c then
    (if (c + 1 <? N) && cellOn b r (c + 1) then [horizontal r c] else [])
    ++ (if (r + 1 <? N) && cellOn b (r + 1) c then [vertical r c] else [])
  else [].

(** ** Solvable boards and runs of grid clicks *)

(** A board of side [N] that some moves at cells of the grid turn all
    off. *)
Definition solvable (N : Z) (b : Board) : Prop :=
  ∃ ms, Forall (validTarget N) ms ∧ applyMoves N ms b = Ok (allOff N).

Section GridRuns.

Context {Rng : Type} (randomIndex : Z → Rng → Z * Rng) (stack : nat).
Variable webAudio : SoundSettings → option Z → option (nat * Z) → Result unit.

(** Every click of the run comes from a cell button of the board shown at
    that moment. *)
Fixpoint clicksFromGrid (acts : list Action) (a : AppHooks) (g : Rng) : Prop :=
  match acts with
  | [] => True
  | act :: acts' =>
      match act with
      | CellClick _ _ row col => (row, col) ∈ gridCells (board (game a))
      | _ => True
      end ∧
      match step randomIndex stack webAudio act a g with
      | Ok (a', g') => clicksFromGrid acts' a' g'
      | Throw _ => True
      end
  end.

End GridRuns.

(** * Lemmas and theorems *)

(** ** The embedding on the scenarios of the specification *)

Example centre_move_on_3x3 :
  toggleCellAndNeighbors 1 1 (allOff 3) 3 = Ok (board sessionPlus).
Proof. reflexivity. Qed.

Example corner_move_on_3x3 :
  toggleCellAndNeighbors 0 0 (allOff 3) 3 =
    Ok [ [ {| isOn := true |}; {| isOn := true |}; {| isOn := false |} ];
         [ {| isOn := true |}; {| isOn := false |}; {| isOn := false |} ];
         [ {| isOn := false |}; {| isOn := false |}; {| isOn := false |} ] ].
Proof. reflexivity. Qed.

(** A board with a missing row makes the move throw. *)
Example move_on_ragged_board :
  toggleCellAndNeighbors 0 0 [ [ {| isOn := false |}; {| isOn := false |} ] ] 2
  = Throw TypeError.
Proof. reflexivity. Qed.

Example scramble_counts :
  map (scrambleMovesCount 5) [easy; medium; hard] = [7; 12; 25] ∧
  map (scrambleMovesCount 4) [easy; medium; hard] = [6; 10; 16].
Proof. split; reflexivity. Qed.

Lemma deepCopy_id (b : Board) : deepCopy b = b.
Proof.
  unfold deepCopy. induction b as [|cells b IH]; simpl; [done|].
  f_equal; [|done].
  clear. induction cells as [|[x] cells IH]; simpl; [done|]. by f_equal.
Qed.

Lemma square_lookup N (b : Board) i :
  square N b → 0 <= i < N → ∃ cells, b !! Z.to_nat i = Some cells ∧ length cells = Z.to_nat N.
Proof.
  intros [Hlen Hrows] Hi.
  destruct (lookup_lt_is_Some_2 b (Z.to_nat i)) as [cells Hc]; [lia|].
  exists cells. split; [done|].
  rewrite Forall_lookup in Hrows. by eapply Hrows.
Qed.

(** Two square boards with the same cells are the same board. *)
Lemma board_ext N (b1 b2 : Board) :
  square N b1 → square N b2 →
  (∀ i j, 0 <= i < N → 0 <= j < N → cellOn b1 i j = cellOn b2 i j) →
  b1 = b2.
Proof.
  intros Hs1 Hs2 Hcells.
  apply list_eq_same_length with (Z.to_nat N); [by destruct Hs2 | by destruct Hs1 |].
  intros i r1 r2 Hi Hr1 Hr2.
  assert (Hl1 : length r1 = Z.to_nat N).
  { destruct Hs1 as [_ H]. rewrite Forall_lookup in H. by eapply H. }
  assert (Hl2 : length r2 = Z.to_nat N).
  { destruct Hs2 as [_ H]. rewrite Forall_lookup in H. by eapply H. }
  apply list_eq_same_length with (Z.to_nat N); [done | done |].
  intros j [x] [y] Hj Hx Hy.
  specialize (Hcells (Z.of_nat i) (Z.of_nat j)).
  unfold cellOn in Hcells. rewrite !Nat2Z.id, Hr1, Hr2, Hx, Hy in Hcells.
  simpl in Hcells. f_equal. apply Hcells; lia.
Qed.

Lemma guard_true N r c :
  (r >=? 0) && (r <? N) && (c >=? 0) && (c <? N) = true ↔ 0 <= r < N ∧ 0 <= c < N.
Proof. rewrite !andb_true_iff, !Z.geb_le, !Z.ltb_lt. lia. Qed.

Lemma guard_false N r c :
  (r >=? 0) && (r <? N) && (c >=? 0) && (c <? N) = false ↔ ¬ (0 <= r < N ∧ 0 <= c < N).
Proof. rewrite <- guard_true. by destruct (_ && _). Qed.

(** One guarded flip: defined on a square board, keeps it square, and
    changes the cell at [(r, c)] alone, and only when it is on the grid. *)
Lemma toggle_spec N r c (b : Board) :
  square N b →
  ∃ b', toggle N r c b = Ok b' ∧ square N b' ∧
    ∀ i j, 0 <= i < N → 0 <= j < N →
      cellOn b' i j = xorb (cellOn b i j) ((i =? r) && (j =? c)).
Proof.
  intros Hsq. unfold toggle.
  destruct ((r >=? 0) && (r <? N) && (c >=? 0) && (c <? N)) eqn:Hg.
  - apply guard_true in Hg as [Hr Hc].
    destruct (square_lookup N b r Hsq Hr) as (cells & Hcells & Hlen).
    destruct (lookup_lt_is_Some_2 cells (Z.to_nat c)) as [cell Hcell]; [lia|].
    rewrite Hcells, Hcell. eexists. split; [done|]. split.
    + destruct Hsq as [Hl Hrows]. split; [by rewrite length_insert|].
      apply Forall_insert; [done|]. by rewrite length_insert.
    + intros i j Hi Hj. unfold cellOn.
      destruct (Z.eqb_spec i r) as [->|Hir].
      * rewrite list_lookup_insert_eq by (destruct Hsq; lia).
        rewrite Hcells.
        destruct (Z.eqb_spec j c) as [->|Hjc].
        -- rewrite list_lookup_insert_eq by lia. rewrite Hcell. simpl.
           by rewrite xorb_true_r.
        -- rewrite list_lookup_insert_ne by lia. simpl. by rewrite xorb_false_r.
      * rewrite list_lookup_insert_ne by lia. simpl. by rewrite xorb_false_r.
  - eexists. split; [done|]. split; [done|].
    intros i j Hi Hj. apply guard_false in Hg.
    destruct (Z.eqb_spec i r) as [->|?]; destruct (Z.eqb_spec j c) as [->|?];
      simpl; rewrite ?xorb_false_r; try done.
    exfalso. apply Hg. lia.
Qed.

(** ** The move primitive as an XOR with the plus pattern *)

Ltac use_toggle N r c b Hsq b' Hsq' Hcell :=
  let Heq := fresh "Heq" in
  destruct (toggle_spec N r c b Hsq) as (b' & Heq & Hsq' & Hcell);
  rewrite Heq; simpl.

Lemma five_flips (row col i j : Z) (x : bool) :
  xorb (xorb (xorb (xorb (xorb x ((i =? row) && (j =? col)))
                      ((i =? row - 1) && (j =? col)))
                ((i =? row + 1) && (j =? col)))
          ((i =? row) && (j =? col - 1)))
    ((i =? row) && (j =? col + 1))
  = xorb x (inPlus row col i j).
Proof.
  unfold inPlus.
  destruct (Z.eqb_spec i row), (Z.eqb_spec i (row - 1)), (Z.eqb_spec i (row + 1)),
    (Z.eqb_spec j col), (Z.eqb_spec j (col - 1)), (Z.eqb_spec j (col + 1));
    simpl; try lia; by destruct x.
Qed.

(** On a square board of side [N] the move never throws, returns a square
    board of side [N], and XORs the plus pattern of the target (any integer
    target) onto the cells of the grid. *)
Lemma toggleCellAndNeighbors_spec N row col (b : Board) :
  square N b →
  ∃ b', toggleCellAndNeighbors row col b N = Ok b' ∧ square N b' ∧
    ∀ i j, 0 <= i < N → 0 <= j < N →
      cellOn b' i j = xorb (cellOn b i j) (inPlus row col i j).
Proof.
  intros Hsq. unfold toggleCellAndNeighbors. rewrite deepCopy_id. simpl.
  unfold mbind, Result_bind.
  use_toggle N row col b Hsq b1 Hsq1 H1.
  use_toggle N (row - 1) col b1 Hsq1 b2 Hsq2 H2.
  use_toggle N (row + 1) col b2 Hsq2 b3 Hsq3 H3.
  use_toggle N row (col - 1) b3 Hsq3 b4 Hsq4 H4.
  use_toggle N row (col + 1) b4 Hsq4 b5 Hsq5 H5.
  exists b5. split; [done|]. split; [done|].
  intros i j Hi Hj.
  rewrite H5, H4, H3, H2, H1 by done. apply five_flips.
Qed.

(** The generator's private copy of the move is the move. *)
Lemma scrambleToggle_eq N r c (b : Board) :
  scrambleToggle N r c b = toggleCellAndNeighbors r c b N.
Proof. reflexivity. Qed.

Lemma applyMoves_spec N ms : ∀ b : Board,
  square N b →
  ∃ b', applyMoves N ms b = Ok b' ∧ square N b' ∧
    ∀ i j, 0 <= i < N → 0 <= j < N →
      cellOn b' i j = xorb (cellOn b i j) (hitOdd ms i j).
Proof.
  induction ms as [|[r c] ms IH]; intros b Hsq; simpl.
  - exists b. split; [done|]. split; [done|]. intros. by rewrite xorb_false_r.
  - destruct (toggleCellAndNeighbors_spec N r c b Hsq) as (b1 & Heq & Hsq1 & H1).
    rewrite Heq. simpl.
    destruct (IH b1 Hsq1) as (b' & Heq' & Hsq' & H').
    exists b'. split; [done|]. split; [done|].
    intros i j Hi Hj. rewrite H', H1 by done. by rewrite xorb_assoc.
Qed.

(** The parity of the hits of a cell is the XOR of the parities of the
    occurrence counts of the five targets whose plus pattern holds it. *)
Lemma hitOdd_occurrences ms i j :
  hitOdd ms i j =
    xorb (Nat.odd (occurrences i j ms))
      (xorb (Nat.odd (occurrences (i + 1) j ms))
         (xorb (Nat.odd (occurrences (i - 1) j ms))
            (xorb (Nat.odd (occurrences i (j + 1) ms))
               (Nat.odd (occurrences i (j - 1) ms))))).
Proof.
  induction ms as [|[r c] ms IH]; [done|].
  cbn [hitOdd occurrences]. rewrite IH. unfold inPlus.
  destruct (Z.eqb_spec i r), (Z.eqb_spec i (r - 1)), (Z.eqb_spec i (r + 1)),
    (Z.eqb_spec j c), (Z.eqb_spec j (c - 1)), (Z.eqb_spec j (c + 1));
    try lia;
    destruct (Z.eqb_spec r i), (Z.eqb_spec r (i + 1)), (Z.eqb_spec r (i - 1)),
      (Z.eqb_spec c j), (Z.eqb_spec c (j + 1)), (Z.eqb_spec c (j - 1));
    try lia; cbn [andb orb]; rewrite ?Nat.odd_succ, <- ?Nat.negb_odd;
    repeat match goal with |- context [Nat.odd ?n] => destruct (Nat.odd n) end;
    reflexivity.
Qed.

Lemma square_allOff N : square N (allOff N).
Proof.
  unfold square, allOff. split; [by rewrite length_replicate|].
  apply Forall_replicate. by rewrite length_replicate.
Qed.

Lemma cellOn_allOff N i j : cellOn (allOff N) i j = false.
Proof.
  unfold cellOn, allOff.
  destruct (replicate _ _ !! Z.to_nat i) as [cells|] eqn:H; [|done].
  apply lookup_replicate in H as [-> _].
  destruct (replicate _ _ !! Z.to_nat j) as [cell|] eqn:H; [|done].
  by apply lookup_replicate in H as [-> _].
Qed.

(** Applying the same move twice gives the board back, for any integer
    target. *)
Lemma move_involutive N row col (b : Board) :
  square N b →
  ∃ b', toggleCellAndNeighbors row col b N = Ok b' ∧
        toggleCellAndNeighbors row col b' N = Ok b.
Proof.
  intros Hsq.
  destruct (toggleCellAndNeighbors_spec N row col b Hsq) as (b1 & Heq1 & Hsq1 & H1).
  destruct (toggleCellAndNeighbors_spec N row col b1 Hsq1) as (b2 & Heq2 & Hsq2 & H2).
  exists b1. split; [done|]. rewrite Heq2. f_equal.
  apply (board_ext N); [done | done |].
  intros i j Hi Hj. rewrite H2, H1 by done.
  by destruct (cellOn b i j), (inPlus row col i j).
Qed.

(** Two sequences of moves that hit every cell with the same parity end on
    the same board. *)
Lemma applyMoves_same_hits N ms1 ms2 (b : Board) :
  square N b →
  (∀ i j, 0 <= i < N → 0 <= j < N → hitOdd ms1 i j = hitOdd ms2 i j) →
  ∃ b', applyMoves N ms1 b = Ok b' ∧ applyMoves N ms2 b = Ok b' ∧ square N b'.
Proof.
  intros Hsq Hhits.
  destruct (applyMoves_spec N ms1 b Hsq) as (b1 & Heq1 & Hsq1 & H1).
  destruct (applyMoves_spec N ms2 b Hsq) as (b2 & Heq2 & Hsq2 & H2).
  exists b1. split; [done|]. split; [|done]. rewrite Heq2. f_equal.
  apply (board_ext N); [done | done |].
  intros i j Hi Hj. rewrite H1, H2, Hhits by done. done.
Qed.

(** C2. The move is an involution: on a board of side N >= 1 and for a
    target inside the grid, applying [toggleCellAndNeighbors] twice at the
    same target returns exactly the board one started from. *)
Theorem C2_move_involution N (b : Board) r c :
  1 <= N → square N b → 0 <= r < N → 0 <= c < N →
  ∃ b', toggleCellAndNeighbors r c b N = Ok b' ∧
        toggleCellAndNeighbors r c b' N = Ok b.
Proof. intros _ Hsq _ _. by apply move_involutive. Qed.

Lemma C2_move_involution_witness :
  ∃ b', toggleCellAndNeighbors 1 1 (allOff 3) 3 = Ok b' ∧
        toggleCellAndNeighbors 1 1 b' 3 = Ok (allOff 3).
Proof.
  apply (C2_move_involution 3 (allOff 3) 1 1); [lia | | lia | lia].
  split; [reflexivity | repeat constructor].
Defined.

(** C3. Moves are order-independent: two moves at targets inside the grid
    give the same board in either order, and the board reached by a sequence
    of such moves is fixed by the parity of the number of occurrences of each
    coordinate in the sequence, whatever the order. *)
Theorem C3_moves_order_independent N (b : Board) :
  square N b →
  (∀ r1 c1 r2 c2,
     validTarget N (r1, c1) → validTarget N (r2, c2) →
     ∃ b1 b2 b',
       toggleCellAndNeighbors r1 c1 b N = Ok b1 ∧
       toggleCellAndNeighbors r2 c2 b1 N = Ok b' ∧
       toggleCellAndNeighbors r2 c2 b N = Ok b2 ∧
       toggleCellAndNeighbors r1 c1 b2 N = Ok b') ∧
  (∀ ms1 ms2,
     Forall (validTarget N) ms1 → Forall (validTarget N) ms2 →
     (∀ r c, Nat.odd (occurrences r c ms1) = Nat.odd (occurrences r c ms2)) →
     ∃ b', applyMoves N ms1 b = Ok b' ∧ applyMoves N ms2 b = Ok b').
Proof.
  intros Hsq. split.
  - intros r1 c1 r2 c2 _ _.
    destruct (toggleCellAndNeighbors_spec N r1 c1 b Hsq) as (b1 & E1 & Hsq1 & H1).
    destruct (toggleCellAndNeighbors_spec N r2 c2 b1 Hsq1) as (b12 & E12 & Hsq12 & H12).
    destruct (toggleCellAndNeighbors_spec N r2 c2 b Hsq) as (b2 & E2 & Hsq2 & H2).
    destruct (toggleCellAndNeighbors_spec N r1 c1 b2 Hsq2) as (b21 & E21 & Hsq21 & H21).
    exists b1, b2, b12. repeat (split; [done|]).
    rewrite E21. f_equal. apply (board_ext N); [done | done |].
    intros i j Hi Hj. rewrite H21, H2, H12, H1 by done.
    by destruct (cellOn b i j), (inPlus r1 c1 i j), (inPlus r2 c2 i j).
  - intros ms1 ms2 _ _ Hpar.
    destruct (applyMoves_same_hits N ms1 ms2 b Hsq) as (b' & E1 & E2 & _); [|eauto].
    intros i j _ _. rewrite !hitOdd_occurrences. by rewrite !Hpar.
Qed.

Lemma C3_moves_order_independent_witness :
  ∃ b', applyMoves 3 [(0, 0); (1, 2); (0, 0); (2, 1)] (allOff 3) = Ok b' ∧
        applyMoves 3 [(2, 1); (1, 2)] (allOff 3) = Ok b'.
Proof.
  apply (C3_moves_order_independent 3 (allOff 3)).
  - split; [reflexivity | repeat constructor].
  - repeat constructor; simpl; lia.
  - repeat constructor; simpl; lia.
  - intros r c. cbn [occurrences].
    destruct (Z.eqb_spec 0 r), (Z.eqb_spec 0 c), (Z.eqb_spec 1 r), (Z.eqb_spec 2 c),
      (Z.eqb_spec 2 r), (Z.eqb_spec 1 c); simpl; try reflexivity; lia.
Defined.

(** ** Which cells a move flips, and how many *)

Lemma elem_of_positions N p : p ∈ positions N ↔ validTarget N p.
Proof.
  unfold positions, validTarget. rewrite list_elem_of_bind. split.
  - intros (i & Hp & Hi). apply list_elem_of_bind in Hp as (j & Hp & Hj).
    apply list_elem_of_singleton in Hp as ->.
    apply elem_of_seqZ in Hi, Hj. simpl. lia.
  - destruct p as [i j]. simpl. intros [Hi Hj]. exists i. split.
    + apply list_elem_of_bind. exists j. split; [apply list_elem_of_singleton; done|].
      apply elem_of_seqZ. lia.
    + apply elem_of_seqZ. lia.
Qed.

Lemma NoDup_positions N : NoDup (positions N).
Proof.
  unfold positions. apply NoDup_bind; [| |apply NoDup_seqZ].
  - intros i1 i2 p _ _ H1 H2.
    apply list_elem_of_bind in H1 as (j1 & H1 & _).
    apply list_elem_of_bind in H2 as (j2 & H2 & _).
    apply list_elem_of_singleton in H1, H2. congruence.
  - intros i _. apply NoDup_bind; [| |apply NoDup_seqZ].
    + intros j1 j2 p _ _ H1 H2. apply list_elem_of_singleton in H1, H2. congruence.
    + intros j _. apply NoDup_singleton.
Qed.

Lemma elem_of_plusCells N row col p :
  p ∈ plusCells N row col ↔ validTarget N p ∧ inPlus row col p.1 p.2 = true.
Proof.
  unfold plusCells. rewrite list_elem_of_filter, !elem_of_cons, elem_of_nil.
  destruct p as [i j]. unfold inPlus. simpl.
  rewrite !orb_true_iff, !andb_true_iff, !Z.eqb_eq.
  split.
  - intros [Hv H]. split; [done|].
    destruct H as [H|[H|[H|[H|[H|[]]]]]]; injection H as -> ->; lia.
  - intros [Hv H]. split; [done|].
    destruct H as [[[[[-> ->]|[-> ->]]|[-> ->]]|[-> ->]]|[-> ->]]; auto 10.
Qed.

Lemma NoDup_plusCells N row col : NoDup (plusCells N row col).
Proof.
  unfold plusCells. apply list.NoDup_filter.
  repeat (apply NoDup_cons_2;
          [rewrite ?elem_of_cons, elem_of_nil; intros H;
           repeat (destruct H as [H|H]; [injection H; lia|]); done|]).
  apply NoDup_nil_2.
Qed.

(** The cells that differ after a move are the cells of the plus pattern
    that lie on the grid. *)
Lemma flippedCells_move N row col (b b' : Board) :
  square N b → toggleCellAndNeighbors row col b N = Ok b' →
  flippedCells N b b' ≡ₚ plusCells N row col.
Proof.
  intros Hsq Hmove.
  destruct (toggleCellAndNeighbors_spec N row col b Hsq) as (b1 & Heq & _ & Hcells).
  rewrite Hmove in Heq. injection Heq as <-.
  apply NoDup_Permutation.
  - apply list.NoDup_filter, NoDup_positions.
  - apply NoDup_plusCells.
  - intros [i j]. unfold flippedCells.
    rewrite list_elem_of_filter, elem_of_positions, elem_of_plusCells. simpl.
    split.
    + intros [Hne [Hi Hj]]. split; [done|].
      rewrite Hcells in Hne by done.
      destruct (inPlus row col i j); [done|]. by rewrite xorb_false_r in Hne.
    + intros [[Hi Hj] Hp]. split; [|done].
      rewrite Hcells, Hp by done. by destruct (cellOn b i j).
Qed.

Ltac count_plus :=
  unfold plusCells;
  repeat (first [rewrite filter_cons_True by (unfold validTarget; simpl; lia)
                |rewrite filter_cons_False by (unfold validTarget; simpl; lia)]);
  rewrite filter_nil; reflexivity.

Lemma plusCells_interior N row col :
  0 < row < N - 1 → 0 < col < N - 1 → length (plusCells N row col) = 5%nat.
Proof. intros Hr Hc. count_plus. Qed.

Lemma plusCells_corner N row col :
  3 <= N → (row = 0 ∨ row = N - 1) → (col = 0 ∨ col = N - 1) →
  length (plusCells N row col) = 3%nat.
Proof. intros HN [-> | ->] [-> | ->]; count_plus. Qed.

Lemma plusCells_edge N row col :
  3 <= N →
  ((row = 0 ∨ row = N - 1) ∧ 0 < col < N - 1) ∨
  (0 < row < N - 1 ∧ (col = 0 ∨ col = N - 1)) →
  length (plusCells N row col) = 4%nat.
Proof. intros HN [[[-> | ->] Hc] | [Hr [-> | ->]]]; count_plus. Qed.

Lemma inPlus_true row col i j :
  inPlus row col i j = true ↔
  (i = row ∧ j = col) ∨ (i = row - 1 ∧ j = col) ∨ (i = row + 1 ∧ j = col) ∨
  (i = row ∧ j = col - 1) ∨ (i = row ∧ j = col + 1).
Proof.
  unfold inPlus. rewrite !orb_true_iff, !andb_true_iff, !Z.eqb_eq. tauto.
Qed.

(** C4. For a target inside an N x N board the move flips the target and
    each orthogonal neighbour that lies on the grid, and leaves every other
    cell as it was, the diagonal neighbours among them; hence, for N >= 3,
    a move at a corner flips at most 3 cells, a move at an edge cell that is
    no corner at most 4, and a move at an interior cell exactly 5. *)
Theorem C4_move_flips_plus_pattern N (b : Board) r c :
  square N b → 0 <= r < N → 0 <= c < N →
  ∃ b', toggleCellAndNeighbors r c b N = Ok b' ∧
    (∀ i j, 0 <= i < N → 0 <= j < N →
       (i = r ∧ j = c) ∨ (i = r - 1 ∧ j = c) ∨ (i = r + 1 ∧ j = c) ∨
       (i = r ∧ j = c - 1) ∨ (i = r ∧ j = c + 1) →
       cellOn b' i j = negb (cellOn b i j)) ∧
    (∀ i j, 0 <= i < N → 0 <= j < N →
       ¬ ((i = r ∧ j = c) ∨ (i = r - 1 ∧ j = c) ∨ (i = r + 1 ∧ j = c) ∨
          (i = r ∧ j = c - 1) ∨ (i = r ∧ j = c + 1)) →
       cellOn b' i j = cellOn b i j) ∧
    (∀ i j, 0 <= i < N → 0 <= j < N →
       (i = r - 1 ∨ i = r + 1) → (j = c - 1 ∨ j = c + 1) →
       cellOn b' i j = cellOn b i j) ∧
    (3 <= N →
       ((r = 0 ∨ r = N - 1) ∧ (c = 0 ∨ c = N - 1) →
          (length (flippedCells N b b') <= 3)%nat) ∧
       (((r = 0 ∨ r = N - 1) ∧ 0 < c < N - 1) ∨
        (0 < r < N - 1 ∧ (c = 0 ∨ c = N - 1)) →
          (length (flippedCells N b b') <= 4)%nat) ∧
       (0 < r < N - 1 ∧ 0 < c < N - 1 →
          length (flippedCells N b b') = 5%nat)).
Proof.
  intros Hsq Hr Hc.
  destruct (toggleCellAndNeighbors_spec N r c b Hsq) as (b' & Heq & _ & Hcells).
  exists b'. split; [done|].
  pose proof (inPlus_true r c) as Hplus.
  split; [|split; [|split]].
  - intros i j Hi Hj Hin. apply Hplus in Hin.
    rewrite Hcells, Hin by done. by rewrite xorb_true_r.
  - intros i j Hi Hj Hout. rewrite Hcells by done.
    destruct (inPlus r c i j) eqn:E; [by apply Hplus in E|]. by rewrite xorb_false_r.
  - intros i j Hi Hj Hdi Hdj. rewrite Hcells by done.
    destruct (inPlus r c i j) eqn:E; [apply Hplus in E; lia|]. by rewrite xorb_false_r.
  - intros HN.
    pose proof (Permutation_length (flippedCells_move N r c b b' Hsq Heq)) as Hlen.
    rewrite Hlen. split; [|split].
    + intros [Hr' Hc']. by rewrite plusCells_corner.
    + intros He. by rewrite plusCells_edge.
    + intros [Hr' Hc']. by apply plusCells_interior.
Qed.

Lemma C4_move_flips_plus_pattern_witness :
  ∃ b', toggleCellAndNeighbors 1 1 (allOff 3) 3 = Ok b' ∧
        cellOn b' 0 1 = true ∧ cellOn b' 0 0 = false ∧
        length (flippedCells 3 (allOff 3) b') = 5%nat.
Proof.
  destruct (C4_move_flips_plus_pattern 3 (allOff 3) 1 1)
    as (b' & Heq & Hin & _ & Hdiag & Hcount).
  - split; [reflexivity | repeat constructor].
  - lia.
  - lia.
  - exists b'. split; [exact Heq|]. split; [|split].
    + rewrite (Hin 0 1); [reflexivity | lia | lia | lia].
    + rewrite (Hdiag 0 0); [reflexivity | lia | lia | lia | lia].
    + apply Hcount; lia.
Defined.

(** C10. The move is total on every integer target, on the grid or not: on
    an N x N board it never throws, returns an N x N board, and flips exactly
    the cells of the plus pattern of the target that lie on the grid.  In
    particular a target one step outside the grid, next to a cell of the
    grid, changes the board. *)
Theorem C10_move_total_on_any_target N (b : Board) row col :
  square N b →
  ∃ b', toggleCellAndNeighbors row col b N = Ok b' ∧ square N b' ∧
    (∀ i j, 0 <= i < N → 0 <= j < N →
       cellOn b' i j =
         if inPlus row col i j then negb (cellOn b i j) else cellOn b i j) ∧
    flippedCells N b b' ≡ₚ plusCells N row col ∧
    (((row = -1 ∨ row = N) ∧ 0 <= col < N) ∨
     (0 <= row < N ∧ (col = -1 ∨ col = N)) → b' ≠ b).
Proof.
  intros Hsq.
  destruct (toggleCellAndNeighbors_spec N row col b Hsq) as (b' & Heq & Hsq' & Hcells).
  exists b'. split; [done|]. split; [done|]. split; [|split].
  - intros i j Hi Hj. rewrite Hcells by done.
    by destruct (inPlus row col i j), (cellOn b i j).
  - by apply flippedCells_move.
  - intros Hout Hsame. subst b'.
    assert (∃ i j, 0 <= i < N ∧ 0 <= j < N ∧ inPlus row col i j = true)
      as (i & j & Hi & Hj & Hp).
    { destruct Hout as [[[-> | ->] Hc] | [Hr [-> | ->]]].
      - exists 0, col. rewrite inPlus_true. lia.
      - exists (N - 1), col. rewrite inPlus_true. lia.
      - exists row, 0. rewrite inPlus_true. lia.
      - exists row, (N - 1). rewrite inPlus_true. lia. }
    specialize (Hcells i j Hi Hj). rewrite Hp in Hcells.
    by destruct (cellOn b i j).
Qed.

Lemma C10_move_total_on_any_target_witness :
  ∃ b', toggleCellAndNeighbors (-1) 0 (allOff 3) 3 = Ok b' ∧ square 3 b' ∧
        cellOn b' 0 0 = true ∧ b' ≠ allOff 3.
Proof.
  destruct (C10_move_total_on_any_target 3 (allOff 3) (-1) 0)
    as (b' & Heq & Hsq & Hcells & _ & Hne).
  - split; [reflexivity | repeat constructor].
  - exists b'. split; [exact Heq|]. split; [exact Hsq|]. split.
    + rewrite (Hcells 0 0); [reflexivity | lia | lia].
    + apply Hne. lia.
Defined.

(** ** The win test *)

Lemma everyOff_iff N (b : Board) :
  square N b →
  everyOff b = true ↔ ∀ i j, 0 <= i < N → 0 <= j < N → cellOn b i j = false.
Proof.
  intros Hsq. unfold everyOff.
  rewrite <- Is_true_true, forallb_True, Forall_concat, Forall_lookup.
  split.
  - intros Hall i j Hi Hj. unfold cellOn.
    destruct (b !! Z.to_nat i) as [cells|] eqn:Hcells; [|done].
    destruct (cells !! Z.to_nat j) as [cell|] eqn:Hcell; [|done].
    specialize (Hall _ _ Hcells). rewrite Forall_lookup in Hall.
    specialize (Hall _ _ Hcell). by destruct (isOn cell).
  - intros Hoff i cells Hcells. rewrite Forall_lookup. intros j cell Hcell.
    pose proof (lookup_lt_Some _ _ _ Hcells) as Hi.
    pose proof (lookup_lt_Some _ _ _ Hcell) as Hj.
    destruct Hsq as [Hlen Hrows]. rewrite Forall_lookup in Hrows.
    specialize (Hrows _ _ Hcells). simpl in Hrows.
    specialize (Hoff (Z.of_nat i) (Z.of_nat j)).
    unfold cellOn in Hoff. rewrite !Nat2Z.id, Hcells, Hcell in Hoff.
    rewrite Hoff by lia. done.
Qed.

Lemma not_everyOff_cell N (b : Board) :
  square N b → everyOff b = false →
  ∃ i j, 0 <= i < N ∧ 0 <= j < N ∧ cellOn b i j = true.
Proof.
  intros Hsq Hoff.
  destruct (decide (Exists (λ p, cellOn b p.1 p.2 = true) (positions N))) as [Hex|Hno].
  - apply Exists_exists in Hex as ([i j] & Hin & Hon).
    apply list_elem_of_In, elem_of_positions in Hin as [Hi Hj]. by exists i, j.
  - exfalso. apply not_true_iff_false in Hoff. apply Hoff.
    apply (everyOff_iff N b Hsq). intros i j Hi Hj.
    destruct (cellOn b i j) eqn:E; [|done].
    exfalso. apply Hno, Exists_exists. exists (i, j). split; [|done].
    by apply list_elem_of_In, elem_of_positions.
Qed.

(** ** The click handler *)

(** C5. A click inside the grid while the game is not won: the new board is
    the move applied to the old board, the counter of moves goes up by one,
    and the game is won exactly when every cell of the new board is off. *)
Theorem C5_click_applies_move (s : AppState) row col :
  hasWon s = false →
  square (boardSize s) (board s) →
  0 <= row < boardSize s → 0 <= col < boardSize s →
  ∃ s', handleCellClick row col s = Ok s' ∧
    toggleCellAndNeighbors row col (board s) (boardSize s) = Ok (board s') ∧
    moves s' = moves s + 1 ∧
    (hasWon s' = true ↔
       ∀ i j, 0 <= i < boardSize s → 0 <= j < boardSize s →
         cellOn (board s') i j = false) ∧
    boardSize s' = boardSize s ∧ difficulty s' = difficulty s.
Proof.
  intros Hwon Hsq _ _. unfold handleCellClick. rewrite Hwon.
  destruct (toggleCellAndNeighbors_spec (boardSize s) row col (board s) Hsq)
    as (b' & Heq & Hsq' & _).
  rewrite Heq. simpl. eexists. split; [done|]. simpl.
  split; [done|]. split; [done|]. split; [|done].
  rewrite <- (everyOff_iff _ _ Hsq'). by destruct (everyOff b').
Qed.

Lemma C5_click_applies_move_witness :
  ∃ s', handleCellClick 1 1 sessionPlus = Ok s' ∧
        board s' = allOff 3 ∧ moves s' = 1 ∧ hasWon s' = true.
Proof.
  destruct (C5_click_applies_move sessionPlus 1 1)
    as (s' & Hclick & Hboard & Hmoves & Hwin & _).
  - reflexivity.
  - split; [reflexivity | repeat constructor].
  - simpl; lia.
  - simpl; lia.
  - exists s'. split; [exact Hclick|].
    assert (E : toggleCellAndNeighbors 1 1 (board sessionPlus) (boardSize sessionPlus)
                = Ok (allOff 3)) by reflexivity.
    rewrite E in Hboard. injection Hboard as Hboard.
    split; [by rewrite <- Hboard|]. split; [exact Hmoves|].
    apply Hwin. intros i j _ _. rewrite <- Hboard. apply (cellOn_allOff 3).
Defined.

(** C8. Once the game is won a click changes nothing, whatever the
    coordinates: the handler returns before it touches the board, the
    counter of moves or the flag. *)
Theorem C8_won_is_terminal (s : AppState) row col :
  hasWon s = true →
  handleCellClick row col s = Ok s.
Proof. intros Hwon. unfold handleCellClick. by rewrite Hwon. Qed.

Lemma C8_won_is_terminal_witness :
  handleCellClick 1 1
    {| boardSize := 3; difficulty := hard; board := allOff 3; moves := 7;
       hasWon := true; lastClick := Some (0, 2) |}
  = Ok {| boardSize := 3; difficulty := hard; board := allOff 3; moves := 7;
          hasWon := true; lastClick := Some (0, 2) |}.
Proof. apply C8_won_is_terminal. reflexivity. Defined.

(** The move that [handleCellClick] makes of a click outside the grid: the
    counter goes up by one, the new board is the move applied to the old
    board, and the board stays as it was exactly when the target is not next
    to a cell of the grid. *)
Lemma handleCellClick_off_grid (s : AppState) row col :
  hasWon s = false →
  square (boardSize s) (board s) →
  row < 0 ∨ boardSize s <= row ∨ col < 0 ∨ boardSize s <= col →
  ∃ s', handleCellClick row col s = Ok s' ∧
    moves s' = moves s + 1 ∧
    toggleCellAndNeighbors row col (board s) (boardSize s) = Ok (board s') ∧
    (∀ i j, 0 <= i < boardSize s → 0 <= j < boardSize s →
       cellOn (board s') i j =
         if inPlus row col i j then negb (cellOn (board s) i j)
         else cellOn (board s) i j) ∧
    (hasWon s' = true ↔
       ∀ i j, 0 <= i < boardSize s → 0 <= j < boardSize s →
         cellOn (board s') i j = false) ∧
    (board s' = board s ↔
       ¬ (((row = -1 ∨ row = boardSize s) ∧ 0 <= col < boardSize s) ∨
          (0 <= row < boardSize s ∧ (col = -1 ∨ col = boardSize s)))).
Proof.
  intros Hwon Hsq Hout. unfold handleCellClick. rewrite Hwon.
  destruct (toggleCellAndNeighbors_spec (boardSize s) row col (board s) Hsq)
    as (b' & Heq & Hsq' & Hcells).
  rewrite Heq. simpl. eexists. split; [done|]. simpl.
  split; [done|]. split; [done|]. split; [|split].
  - intros i j Hi Hj. rewrite Hcells by done.
    by destruct (inPlus row col i j), (cellOn (board s) i j).
  - rewrite <- (everyOff_iff _ _ Hsq'). by destruct (everyOff b').
  - split.
    + intros -> Hadj.
      assert (∃ i j, 0 <= i < boardSize s ∧ 0 <= j < boardSize s ∧
                     inPlus row col i j = true) as (i & j & Hi & Hj & Hp).
      { destruct Hadj as [[[-> | ->] Hc] | [Hr [-> | ->]]].
        - exists 0, col. rewrite inPlus_true. lia.
        - exists (boardSize s - 1), col. rewrite inPlus_true. lia.
        - exists row, 0. rewrite inPlus_true. lia.
        - exists row, (boardSize s - 1). rewrite inPlus_true. lia. }
      specialize (Hcells i j Hi Hj). rewrite Hp in Hcells.
      by destruct (cellOn (board s) i j).
    + intros Hfar. apply (board_ext (boardSize s)); [done | done |].
      intros i j Hi Hj. rewrite Hcells by done.
      destruct (inPlus row col i j) eqn:E; [|by rewrite xorb_false_r].
      apply inPlus_true in E. lia.
Qed.

(** ** The generator *)

Lemma scrambleMovesCount_easy N : scrambleMovesCount N easy = (3 * N) `div` 2.
Proof.
  change (scrambleMovesCount N easy) with ((N * 15) `div` (2 * 5)).
  replace (N * 15) with ((3 * N) * 5) by lia.
  by rewrite (Z.div_mul_cancel_r (3 * N) 2 5).
Qed.

Lemma scrambleMovesCount_medium N : scrambleMovesCount N medium = (5 * N) `div` 2.
Proof.
  change (scrambleMovesCount N medium) with ((N * 25) `div` (2 * 5)).
  replace (N * 25) with ((5 * N) * 5) by lia.
  by rewrite (Z.div_mul_cancel_r (5 * N) 2 5).
Qed.

Lemma scrambleMovesCount_nonneg N d : 0 <= N → 0 <= scrambleMovesCount N d.
Proof.
  intros HN. destruct d.
  - rewrite scrambleMovesCount_easy. apply Z.div_pos; lia.
  - rewrite scrambleMovesCount_medium. apply Z.div_pos; lia.
  - simpl. nia.
Qed.

Lemma emptyBoard_allOff N : 0 <= N → emptyBoard N = Ok (allOff N).
Proof.
  intros HN. unfold emptyBoard.
  destruct (Z.ltb_spec N 0); [lia | done].
Qed.

Section GeneratorProperties.

Context {Rng : Type} (randomIndex : Z → Rng → Z * Rng).

Lemma draws_length N k g : length (draws randomIndex N k g) = k.
Proof.
  revert g. induction k as [|k IH]; intros g; simpl; [done|].
  destruct (randomIndex N g) as [r g1], (randomIndex N g1) as [c g2].
  simpl. by rewrite IH.
Qed.

Lemma draws_valid N k g :
  inRangeSource randomIndex → 1 <= N → Forall (validTarget N) (draws randomIndex N k g).
Proof.
  intros Hsrc HN. revert g. induction k as [|k IH]; intros g; simpl; [done|].
  pose proof (Hsrc N g HN) as Hr.
  destruct (randomIndex N g) as [r g1].
  pose proof (Hsrc N g1 HN) as Hc.
  destruct (randomIndex N g1) as [c g2].
  constructor; [done | apply IH].
Qed.

(** The loop is the sequence of its draws applied as moves. *)
Lemma scrambleLoop_draws N k : ∀ (b : Board) g,
  scrambleLoop randomIndex N k b g =
    b' ← applyMoves N (draws randomIndex N k g) b; Ok (b', rngAfter randomIndex N k g).
Proof.
  induction k as [|k IH]; intros b g; simpl; [done|].
  destruct (randomIndex N g) as [r g1], (randomIndex N g1) as [c g2].
  rewrite scrambleToggle_eq. simpl.
  destruct (toggleCellAndNeighbors r c b N) as [b1|e]; simpl; [apply IH | done].
Qed.

Lemma scrambleOnce_spec N d g :
  0 <= N →
  let k := Z.to_nat (scrambleMovesCount N d) in
  ∃ b, scrambleOnce randomIndex N d g = Ok (b, rngAfter randomIndex N k g) ∧
       applyMoves N (draws randomIndex N k g) (allOff N) = Ok b ∧ square N b.
Proof.
  intros HN k. unfold scrambleOnce. rewrite emptyBoard_allOff by done. simpl.
  rewrite scrambleLoop_draws. fold k.
  destruct (applyMoves_spec N (draws randomIndex N k g) (allOff N) (square_allOff N))
    as (b & Heq & Hsq & _).
  exists b. by rewrite Heq.
Qed.

(** A board the generator returns is the outcome of one scramble, and
    not every cell of it is off. *)
Lemma createSolvableBoard_returns N d stack : ∀ g (b : Board) g',
  0 <= N →
  createSolvableBoard randomIndex stack N d g = Ok (b, g') →
  ∃ g0, scrambleOnce randomIndex N d g0 = Ok (b, g') ∧ everyOff b = false.
Proof.
  induction stack as [|stack IH]; intros g b g' HN; simpl; [done|].
  destruct (scrambleOnce_spec N d g HN) as (b1 & Heq & _ & _).
  rewrite Heq. simpl.
  destruct (everyOff b1) eqn:Hoff.
  - by apply IH.
  - intros [= <- <-]. by exists g.
Qed.

(** The generator never fails on an index: the only error it can end in
    is the exhaustion of the call stack. *)
Lemma createSolvableBoard_throws N d stack : ∀ g e,
  0 <= N →
  createSolvableBoard randomIndex stack N d g = Throw e → e = RangeError.
Proof.
  induction stack as [|stack IH]; intros g e HN; simpl; [by intros [= <-]|].
  destruct (scrambleOnce_spec N d g HN) as (b1 & Heq & _ & _).
  rewrite Heq. simpl.
  destruct (everyOff b1); [by apply IH | done].
Qed.

(** Enough stack gives a board: if the attempt number [k] has a lit cell,
    every call with more than [k] activations left returns. *)
Lemma createSolvableBoard_progress N d k : ∀ g (b : Board) g1 stack,
  0 <= N →
  scrambleOnce randomIndex N d (attemptState randomIndex N d k g) = Ok (b, g1) →
  everyOff b = false →
  (k < stack)%nat →
  ∃ (b' : Board) g', createSolvableBoard randomIndex stack N d g = Ok (b', g').
Proof.
  induction k as [|k IH]; intros g b g1 stack HN Hk Hlit Hstack;
    (destruct stack as [|stack]; [lia|]); simpl in *.
  - rewrite Hk. simpl. rewrite Hlit. eauto.
  - destruct (scrambleOnce_spec N d g HN) as (b0 & Heq & _ & _).
    rewrite Heq. simpl.
    destruct (everyOff b0); [|eauto].
    apply (IH _ b g1); [done | done | done | lia].
Qed.

End GeneratorProperties.

(** Replaying a sequence of moves on the board it led to leads back. *)
Lemma applyMoves_undo N ms (b b' : Board) :
  square N b → applyMoves N ms b = Ok b' → applyMoves N ms b' = Ok b.
Proof.
  intros Hsq Heq.
  destruct (applyMoves_spec N ms b Hsq) as (b1 & Heq1 & Hsq1 & H1).
  rewrite Heq in Heq1. injection Heq1 as <-.
  destruct (applyMoves_spec N ms b' Hsq1) as (b2 & Heq2 & Hsq2 & H2).
  rewrite Heq2. f_equal. apply (board_ext N); [done | done |].
  intros i j Hi Hj. rewrite H2, H1 by done.
  by destruct (cellOn b i j), (hitOdd ms i j).
Qed.

Lemma lcgIndex_inRange : inRangeSource lcgIndex.
Proof. intros n g Hn. unfold lcgIndex. simpl. apply Z.mod_pos_bound. lia. Qed.

(** C1. For N >= 1 and each difficulty, a board that [createSolvableBoard]
    returns is reached from the all-off N x N board by a finite sequence of
    moves at targets inside the grid (the draws of the scramble that produced
    it), and the same sequence of moves leads from it back to the all-off
    board: the puzzle can be solved.  The only way for the generator not to
    return a board is to exhaust the call stack. *)
Theorem C1_generated_board_is_solvable {Rng : Type} (randomIndex : Z → Rng → Z * Rng)
    stack N d g :
  1 <= N →
  inRangeSource randomIndex →
  (∀ (b : Board) g',
     createSolvableBoard randomIndex stack N d g = Ok (b, g') →
     ∃ ms,
       Forall (validTarget N) ms ∧
       applyMoves N ms (allOff N) = Ok b ∧
       applyMoves N ms b = Ok (allOff N)) ∧
  (∀ e, createSolvableBoard randomIndex stack N d g = Throw e → e = RangeError).
Proof.
  intros HN Hsrc. split.
  - intros b g' Hrun.
    destruct (createSolvableBoard_returns randomIndex N d stack g b g')
      as (g0 & Honce & _); [lia | done |].
    destruct (scrambleOnce_spec randomIndex N d g0) as (b0 & Heq & Hmoves & _); [lia|].
    simpl in Heq. rewrite Honce in Heq. injection Heq as <- _.
    exists (draws randomIndex N (Z.to_nat (scrambleMovesCount N d)) g0).
    split; [by apply draws_valid|]. split; [done|].
    by apply (applyMoves_undo N _ (allOff N)); [apply square_allOff|].
  - intros e. apply createSolvableBoard_throws. lia.
Qed.

Lemma C1_generated_board_is_solvable_witness :
  ∃ b g' ms,
    createSolvableBoard lcgIndex 4 3 medium 2024 = Ok (b, g') ∧
    Forall (validTarget 3) ms ∧
    applyMoves 3 ms (allOff 3) = Ok b ∧
    applyMoves 3 ms b = Ok (allOff 3).
Proof.
  destruct (createSolvableBoard lcgIndex 4 3 medium 2024) as [[b g']|e] eqn:Hrun;
    [|vm_compute in Hrun; discriminate Hrun].
  destruct (C1_generated_board_is_solvable lcgIndex 4 3 medium 2024) as [Hret _].
  - lia.
  - exact lcgIndex_inRange.
  - destruct (Hret b g' Hrun) as (ms & Hvalid & Hfrom & Hback).
    exists b, g', ms. repeat split; assumption.
Defined.

(** C6. For N >= 1 and each difficulty, a board that [createSolvableBoard]
    returns has a cell that is on.  A scramble that ends with every cell off
    is thrown away and the generator starts again with the same size and
    difficulty, a scramble with a lit cell is returned as it is; so the call
    returns as soon as one attempt within the depth of the stack has a lit
    cell. *)
Theorem C6_generator_never_returns_all_off {Rng : Type}
    (randomIndex : Z → Rng → Z * Rng) stack N d g :
  1 <= N →
  (∀ (b : Board) g',
     createSolvableBoard randomIndex stack N d g = Ok (b, g') →
     square N b ∧ b ≠ allOff N ∧
     ∃ i j, 0 <= i < N ∧ 0 <= j < N ∧ cellOn b i j = true) ∧
  (∃ (b1 : Board) g1,
     scrambleOnce randomIndex N d g = Ok (b1, g1) ∧
     createSolvableBoard randomIndex (S stack) N d g =
       if everyOff b1 then createSolvableBoard randomIndex stack N d g1
       else Ok (b1, g1)) ∧
  (∀ k (bk : Board) gk,
     scrambleOnce randomIndex N d (attemptState randomIndex N d k g) = Ok (bk, gk) →
     everyOff bk = false →
     (k < stack)%nat →
     ∃ (b : Board) g', createSolvableBoard randomIndex stack N d g = Ok (b, g')).
Proof.
  intros HN. split; [|split].
  - intros b g' Hrun.
    destruct (createSolvableBoard_returns randomIndex N d stack g b g')
      as (g0 & Honce & Hlit); [lia | done |].
    destruct (scrambleOnce_spec randomIndex N d g0) as (b0 & Heq & _ & Hsq); [lia|].
    simpl in Heq. rewrite Honce in Heq. injection Heq as <- _.
    split; [done|]. split.
    + intros ->. revert Hlit. clear.
      assert (everyOff (allOff N) = true) as ->; [|done].
      apply (everyOff_iff N); [apply square_allOff|].
      intros. apply cellOn_allOff.
    + by apply not_everyOff_cell.
  - destruct (scrambleOnce_spec randomIndex N d g) as (b1 & Heq & _ & _); [lia|].
    eexists b1, _. split; [exact Heq|]. simpl. by rewrite Heq.
  - intros k bk gk Hk Hlit Hstack.
    apply (createSolvableBoard_progress randomIndex N d k g bk gk); [lia | done..].
Qed.

Lemma C6_generator_never_returns_all_off_witness :
  ∃ b g' i j,
    createSolvableBoard lcgIndex 4 3 easy 7 = Ok (b, g') ∧
    0 <= i < 3 ∧ 0 <= j < 3 ∧ cellOn b i j = true.
Proof.
  destruct (createSolvableBoard lcgIndex 4 3 easy 7) as [[b g']|e] eqn:Hrun;
    [|vm_compute in Hrun; discriminate Hrun].
  destruct (C6_generator_never_returns_all_off lcgIndex 4 3 easy 7) as [Hret _]; [lia|].
  destruct (Hret b g' Hrun) as (_ & _ & i & j & Hi & Hj & Hon).
  exists b, g', i, j. repeat split; try assumption; lia.
Defined.

(** X19. For a side N from 1 up to the largest array length, and provided
    every index drawn from the random source lies in [0, N): one attempt of
    the generator starts from the all-off N x N board and applies exactly M
    moves, at the coordinates it draws from the source, row first, each
    inside the grid, where M is floor(1.5 N) for easy, floor(2.5 N) for
    medium and N * N for hard; every activation of [createSolvableBoard]
    begins with such an attempt.  Nothing is said about how the draws are
    distributed. *)
Theorem X19_scramble_applies_M_moves {Rng : Type} (randomIndex : Z → Rng → Z * Rng)
    N d g :
  1 <= N < 2 ^ 32 →
  inRangeSource randomIndex →
  let M := scrambleMovesCount N d in
  let ms := draws randomIndex N (Z.to_nat M) g in
  M = match d with
      | easy => Qfloor (1.5 * inject_Z N)
      | medium => Qfloor (2.5 * inject_Z N)
      | hard => N ^ 2
      end ∧
  M = match d with
      | easy => (3 * N) `div` 2
      | medium => (5 * N) `div` 2
      | hard => N * N
      end ∧
  Z.of_nat (length ms) = M ∧
  Forall (validTarget N) ms ∧
  ∃ (b : Board) g',
    scrambleOnce randomIndex N d g = Ok (b, g') ∧
    applyMoves N ms (allOff N) = Ok b ∧
    ∀ stack,
      createSolvableBoard randomIndex (S stack) N d g =
        if everyOff b then createSolvableBoard randomIndex stack N d g'
        else Ok (b, g').
Proof.
  intros [HN _] Hsrc M ms. split; [|split; [|split; [|split]]].
  - subst M. destruct d; unfold scrambleMovesCount.
    + apply Qfloor_comp, Qmult_comm.
    + apply Qfloor_comp, Qmult_comm.
    + lia.
  - subst M. destruct d.
    + apply scrambleMovesCount_easy.
    + apply scrambleMovesCount_medium.
    + reflexivity.
  - subst ms. rewrite draws_length.
    pose proof (scrambleMovesCount_nonneg N d). lia.
  - by apply draws_valid.
  - destruct (scrambleOnce_spec randomIndex N d g) as (b & Heq & Hmoves & _); [lia|].
    exists b, (rngAfter randomIndex N (Z.to_nat M) g).
    split; [exact Heq|]. split; [exact Hmoves|].
    intros stack. simpl. by rewrite Heq.
Qed.

Lemma X19_scramble_applies_M_moves_witness :
  scrambleMovesCount 3 easy = 4 ∧
  scrambleMovesCount 3 medium = 7 ∧
  scrambleMovesCount 3 hard = 9 ∧
  Z.of_nat (length (draws lcgIndex 3 (Z.to_nat (scrambleMovesCount 3 medium)) 2024)) = 7 ∧
  ∃ b g', scrambleOnce lcgIndex 3 medium 2024 = Ok (b, g') ∧
          applyMoves 3 (draws lcgIndex 3 7 2024) (allOff 3) = Ok b.
Proof.
  destruct (X19_scramble_applies_M_moves lcgIndex 3 medium 2024)
    as (_ & _ & Hlen & _ & b & g' & Honce & Hmoves & _).
  - lia.
  - exact lcgIndex_inRange.
  - split; [reflexivity|]. split; [reflexivity|]. split; [reflexivity|].
    split; [exact Hlen|]. exists b, g'. split; [exact Honce | exact Hmoves].
Defined.

(** A remark on the smallest board.  On a 1 x 1 board the medium count is 2,
    both draws are the one cell, and every scramble ends all-off: the
    generator recurses until the call stack is exhausted and returns no
    board. *)
Lemma createSolvableBoard_1_medium {Rng : Type} (randomIndex : Z → Rng → Z * Rng)
    stack g :
  inRangeSource randomIndex →
  createSolvableBoard randomIndex stack 1 medium g = Throw RangeError.
Proof.
  intros Hsrc. revert g. induction stack as [|stack IH]; intros g; [done|].
  cbn [createSolvableBoard]. unfold scrambleOnce.
  change (Z.to_nat (scrambleMovesCount 1 medium)) with 2%nat.
  change (emptyBoard 1) with (Ok (allOff 1)).
  cbn [mbind Result_bind scrambleLoop].
  pose proof (Hsrc 1 g) as H1. destruct (randomIndex 1 g) as [r1 g1].
  pose proof (Hsrc 1 g1) as H2. destruct (randomIndex 1 g1) as [c1 g2].
  pose proof (Hsrc 1 g2) as H3. destruct (randomIndex 1 g2) as [r2 g3].
  pose proof (Hsrc 1 g3) as H4. destruct (randomIndex 1 g3) as [c2 g4].
  simpl in H1, H2, H3, H4.
  assert (r1 = 0) as -> by lia. assert (c1 = 0) as -> by lia.
  assert (r2 = 0) as -> by lia. assert (c2 = 0) as -> by lia.
  change (scrambleToggle 1 0 0 (allOff 1)) with (Ok [[ {| isOn := true |} ]] : Result Board).
  cbn [mbind Result_bind].
  change (scrambleToggle 1 0 0 [[ {| isOn := true |} ]]) with (Ok (allOff 1) : Result Board).
  cbn [mbind Result_bind]. change (everyOff (allOff 1)) with true.
  cbn [fst snd]. apply IH.
Qed.

(** * The rest of the application: lemmas and theorems *)

(** ** Reading a board *)

Lemma readIsOn_grid N (b : Board) i j :
  square N b → 0 <= i < N → 0 <= j < N → readIsOn b i j = Ok (cellOn b i j).
Proof.
  intros Hsq Hi Hj. unfold readIsOn, jsIndex, cellOn.
  destruct (Z.ltb_spec i 0); [lia|]. destruct (Z.ltb_spec j 0); [lia|].
  destruct (square_lookup N b i Hsq Hi) as (cells & -> & Hlen).
  destruct (lookup_lt_is_Some_2 cells (Z.to_nat j)) as [cell ->]; [lia|]. done.
Qed.

Lemma readIsOn_off_grid N (b : Board) i j :
  square N b → ¬ (0 <= i < N ∧ 0 <= j < N) → readIsOn b i j = Throw TypeError.
Proof.
  intros [Hlen Hrows] Hout. unfold readIsOn, jsIndex.
  destruct (Z.ltb_spec i 0); [done|].
  destruct (b !! Z.to_nat i) as [cells|] eqn:Hcells; [|done].
  pose proof (lookup_lt_Some _ _ _ Hcells) as Hi.
  rewrite Forall_lookup in Hrows. specialize (Hrows _ _ Hcells). simpl in Hrows.
  destruct (Z.ltb_spec j 0); [done|].
  destruct (cells !! Z.to_nat j) as [cell|] eqn:Hcell; [|done].
  pose proof (lookup_lt_Some _ _ _ Hcell) as Hj. lia.
Qed.

Lemma litAt_grid N (b : Board) i j :
  0 <= i < N → 0 <= j < N → litAt N b i j = if cellOn b i j then 1 else 0.
Proof.
  intros Hi Hj. unfold litAt. by rewrite bool_decide_eq_true_2.
Qed.

Lemma litAt_off_grid N (b : Board) i j :
  ¬ (0 <= i < N ∧ 0 <= j < N) → litAt N b i j = 0.
Proof.
  intros Hout. unfold litAt. by rewrite bool_decide_eq_false_2.
Qed.

(** ** The lit neighbours of a cell *)

Lemma getActiveNeighbors_grid N (b : Board) r c :
  square N b → 0 <= r < N → 0 <= c < N →
  getActiveNeighbors r c b N =
    Ok (litAt N b (r - 1) c + litAt N b (r + 1) c
        + litAt N b r (c - 1) + litAt N b r (c + 1)).
Proof.
  intros Hsq Hr Hc.
  unfold getActiveNeighbors, countIf. rewrite !Z.gtb_ltb.
  destruct (Z.ltb_spec 0 r); destruct (Z.ltb_spec r (N - 1));
    destruct (Z.ltb_spec 0 c); destruct (Z.ltb_spec c (N - 1));
    try (exfalso; lia);
    cbn [mbind Result_bind];
    repeat match goal with
      | |- context [readIsOn b ?i ?j] =>
          rewrite (readIsOn_grid N b i j Hsq) by lia; cbn [mbind Result_bind]
      end;
    repeat match goal with
      | |- context [litAt N b ?i ?j] =>
          first [ rewrite (litAt_grid N b i j) by lia
                | rewrite (litAt_off_grid N b i j) by lia ]
      end;
    repeat match goal with
      | |- context [cellOn b ?i ?j] => destruct (cellOn b i j)
      end;
    reflexivity.
Qed.

Lemma litAt_bounds N (b : Board) i j : 0 <= litAt N b i j <= 1.
Proof. unfold litAt. destruct (_ && _); lia. Qed.

(** X1. On a square board and for a cell of the grid, [getActiveNeighbors]
    does not throw and returns the number of lit cells among the orthogonal
    neighbours that lie on the grid, a number from 0 to 4. *)
Theorem X1_getActiveNeighbors_counts N (b : Board) r c :
  square N b → 0 <= r < N → 0 <= c < N →
  ∃ k, getActiveNeighbors r c b N = Ok k ∧
       k = litAt N b (r - 1) c + litAt N b (r + 1) c
           + litAt N b r (c - 1) + litAt N b r (c + 1) ∧
       0 <= k <= 4.
Proof.
  intros Hsq Hr Hc. eexists. split; [by apply getActiveNeighbors_grid|].
  split; [done|].
  pose proof (litAt_bounds N b (r - 1) c). pose proof (litAt_bounds N b (r + 1) c).
  pose proof (litAt_bounds N b r (c - 1)). pose proof (litAt_bounds N b r (c + 1)).
  lia.
Qed.

Lemma X1_getActiveNeighbors_counts_witness :
  ∃ k, getActiveNeighbors 0 1 (board sessionPlus) 3 = Ok k ∧ k = 1 ∧ 0 <= k <= 4.
Proof.
  destruct (X1_getActiveNeighbors_counts 3 (board sessionPlus) 0 1)
    as (k & Heq & Hk & Hb).
  - split; [reflexivity | repeat constructor].
  - lia.
  - lia.
  - exists k. split; [exact Heq|]. split; [|exact Hb].
    rewrite Hk. reflexivity.
Defined.

Lemma getActiveNeighbors_off_grid N (b : Board) r c :
  square N b → 2 <= N → ¬ (0 <= r < N ∧ 0 <= c < N) →
  getActiveNeighbors r c b N = Throw TypeError.
Proof.
  intros Hsq HN Hout.
  unfold getActiveNeighbors, countIf. rewrite !Z.gtb_ltb.
  destruct (Z.ltb_spec 0 r); destruct (Z.ltb_spec r (N - 1));
    destruct (Z.ltb_spec 0 c); destruct (Z.ltb_spec c (N - 1));
    try (exfalso; lia);
    cbn [mbind Result_bind];
    repeat match goal with
      | |- context [readIsOn b ?i ?j] =>
          destruct (decide (0 <= i < N ∧ 0 <= j < N));
          [ rewrite (readIsOn_grid N b i j Hsq) by lia
          | rewrite (readIsOn_off_grid N b i j Hsq) by done ];
          cbn [mbind Result_bind]
      end;
    try reflexivity; exfalso; lia.
Qed.

(** X2. On a square board of side at least 2, [getActiveNeighbors] throws a
    [TypeError] exactly for the targets that are not on the grid: its guards
    keep the reads on the grid only when the target itself is. *)
Theorem X2_getActiveNeighbors_throws_off_grid N (b : Board) r c :
  square N b → 2 <= N →
  getActiveNeighbors r c b N = Throw TypeError ↔ ¬ (0 <= r < N ∧ 0 <= c < N).
Proof.
  intros Hsq HN. split.
  - intros Hthrow [Hr Hc].
    rewrite (getActiveNeighbors_grid N b r c Hsq Hr Hc) in Hthrow. done.
  - intros Hout. by apply getActiveNeighbors_off_grid.
Qed.

Lemma X2_getActiveNeighbors_throws_off_grid_witness :
  getActiveNeighbors 3 1 (board sessionPlus) 3 = Throw TypeError.
Proof.
  apply (X2_getActiveNeighbors_throws_off_grid 3 (board sessionPlus) 3 1).
  - split; [reflexivity | repeat constructor].
  - lia.
  - lia.
Defined.

(** X3. The sound is played on the board after the move.  On that board
    every neighbour of the clicked cell has changed, so the lit neighbours
    after the click and the lit neighbours before it add up to the number of
    neighbours the cell has on the grid. *)
Theorem X3_getActiveNeighbors_after_move N (b b' : Board) r c :
  square N b → 0 <= r < N → 0 <= c < N →
  toggleCellAndNeighbors r c b N = Ok b' →
  ∃ k k', getActiveNeighbors r c b N = Ok k ∧
          getActiveNeighbors r c b' N = Ok k' ∧
          k + k' = Z.of_nat (length (plusCells N r c)) - 1.
Proof.
  intros Hsq Hr Hc Hmove.
  destruct (toggleCellAndNeighbors_spec N r c b Hsq) as (b1 & Heq & Hsq' & Hcells).
  rewrite Hmove in Heq. injection Heq as <-.
  eexists _, _. split; [by apply getActiveNeighbors_grid|].
  split; [by apply getActiveNeighbors_grid|].
  assert (Hflip : ∀ i j, 0 <= i < N → 0 <= j < N →
            inPlus r c i j = true → cellOn b' i j = negb (cellOn b i j)).
  { intros i j Hi Hj Hp. rewrite Hcells, Hp by done. by rewrite xorb_true_r. }
  unfold plusCells.
  destruct (decide (0 < r)); destruct (decide (r < N - 1));
    destruct (decide (0 < c)); destruct (decide (c < N - 1));
    try (exfalso; lia);
    repeat (first [rewrite filter_cons_True by (unfold validTarget; simpl; lia)
                  |rewrite filter_cons_False by (unfold validTarget; simpl; lia)]);
    rewrite filter_nil;
    repeat match goal with
      | |- context [litAt N ?x ?i ?j] =>
          first [ rewrite (litAt_grid N x i j) by lia
                | rewrite (litAt_off_grid N x i j) by lia ]
      end;
    repeat match goal with
      | |- context [cellOn b' ?i ?j] =>
          rewrite (Hflip i j) by (try apply inPlus_true; lia)
      end;
    repeat match goal with
      | |- context [cellOn b ?i ?j] => destruct (cellOn b i j)
      end;
    reflexivity.
Qed.

Lemma X3_getActiveNeighbors_after_move_witness :
  ∃ k k', getActiveNeighbors 1 1 (allOff 3) 3 = Ok k ∧
          getActiveNeighbors 1 1 (board sessionPlus) 3 = Ok k' ∧
          k + k' = 4.
Proof.
  destruct (X3_getActiveNeighbors_after_move 3 (allOff 3) (board sessionPlus) 1 1)
    as (k & k' & Hk & Hk' & Hsum).
  - split; [reflexivity | repeat constructor].
  - lia.
  - lia.
  - reflexivity.
  - exists k, k'. split; [exact Hk|]. split; [exact Hk'|]. exact Hsum.
Defined.

(** ** The click handler with its sound *)

Lemma playSoundClick_silent webAudio audioCtx (b : Board) row col N settings :
  negb audioCtx || negb (enabled settings) = true →
  playSoundClick webAudio audioCtx b row col N settings = Ok tt.
Proof. intros H. unfold playSoundClick. by rewrite H. Qed.

(** Whenever the handler with sound returns a state, it is the state of
    [handleCellClick]. *)
Lemma handleCellClickWithSound_returns webAudio audioCtx settings row col s s' :
  handleCellClickWithSound webAudio audioCtx settings row col s = Ok s' →
  handleCellClick row col s = Ok s'.
Proof.
  unfold handleCellClickWithSound, handleCellClick.
  destruct (hasWon s); [done|].
  destruct (toggleCellAndNeighbors row col (board s) (boardSize s)) as [b'|e];
    simpl; [|done].
  by destruct (playSoundClick _ _ _ _ _ _ _) as [[]|e].
Qed.

(** With no audio context, or with the sound switched off, the handler with
    sound is [handleCellClick]. *)
Lemma handleCellClickWithSound_silent webAudio audioCtx settings row col s :
  negb audioCtx || negb (enabled settings) = true →
  handleCellClickWithSound webAudio audioCtx settings row col s =
    handleCellClick row col s.
Proof.
  intros Hsilent. unfold handleCellClickWithSound, handleCellClick.
  destruct (hasWon s); [done|].
  destruct (toggleCellAndNeighbors row col (board s) (boardSize s)) as [b'|e];
    simpl; [|done].
  by rewrite playSoundClick_silent.
Qed.

(** What a click outside the grid comes to, for each way the sound can be
    set. *)
Lemma off_grid_click_outcomes
    (webAudio : SoundSettings → option Z → option (nat * Z) → Result unit)
    settings row col (s : AppState) :
  hasWon s = false →
  square (boardSize s) (board s) →
  ¬ (0 <= row < boardSize s ∧ 0 <= col < boardSize s) →
  ∃ s',
    handleCellClick row col s = Ok s' ∧
    (∀ audioCtx, negb audioCtx || negb (enabled settings) = true →
       handleCellClickWithSound webAudio audioCtx settings row col s = Ok s') ∧
    (enabled settings = true → interactive settings = true → 2 <= boardSize s →
       handleCellClickWithSound webAudio true settings row col s = Throw TypeError) ∧
    (enabled settings = true → interactive settings = false →
       handleCellClickWithSound webAudio true settings row col s =
         match webAudio settings (note (boardSize s) row col) None with
         | Ok _ => Ok s'
         | Throw e => Throw e
         end).
Proof.
  intros Hwon Hsq Hout.
  destruct (toggleCellAndNeighbors_spec (boardSize s) row col (board s) Hsq)
    as (b' & Heq & Hsq' & _).
  unfold handleCellClick. rewrite Hwon, Heq. cbn [mbind Result_bind].
  eexists. split; [done|]. split; [|split].
  - intros audioCtx Hsilent.
    rewrite handleCellClickWithSound_silent by done.
    unfold handleCellClick. by rewrite Hwon, Heq.
  - intros Hen Hint HN. unfold handleCellClickWithSound.
    rewrite Hwon, Heq. cbn [mbind Result_bind].
    unfold playSoundClick. rewrite Hen, Hint. cbn [negb orb].
    by rewrite (getActiveNeighbors_off_grid (boardSize s) b' row col).
  - intros Hen Hint. unfold handleCellClickWithSound.
    rewrite Hwon, Heq. cbn [mbind Result_bind].
    unfold playSoundClick. rewrite Hen, Hint. cbn [negb orb].
    by destruct (webAudio _ _ _) as [[]|e].
Qed.

(** X4. A click outside the grid, on a board of side at least 2 and while the
    game is not won.  With an audio context, the sound on and interactive, it
    throws a [TypeError] inside the click sound, before any state setter has
    run.  With no audio context, or with the sound off, it is carried out and
    counted as a move.  With an audio context and the sound on but not
    interactive, it is carried out and counted if the browser's audio calls
    return, and ends in their error if they throw. *)
Theorem X4_off_grid_click_with_sound_throws
    (webAudio : SoundSettings → option Z → option (nat * Z) → Result unit)
    settings row col (s : AppState) :
  hasWon s = false →
  square (boardSize s) (board s) →
  2 <= boardSize s →
  ¬ (0 <= row < boardSize s ∧ 0 <= col < boardSize s) →
  (enabled settings = true → interactive settings = true →
   handleCellClickWithSound webAudio true settings row col s = Throw TypeError) ∧
  (∀ audioCtx, negb audioCtx || negb (enabled settings) = true →
     ∃ s', handleCellClickWithSound webAudio audioCtx settings row col s = Ok s' ∧
           moves s' = moves s + 1) ∧
  (enabled settings = true → interactive settings = false →
   ∃ s', moves s' = moves s + 1 ∧
         handleCellClickWithSound webAudio true settings row col s =
           match webAudio settings (note (boardSize s) row col) None with
           | Ok _ => Ok s'
           | Throw e => Throw e
           end).
Proof.
  intros Hwon Hsq HN Hout.
  destruct (off_grid_click_outcomes webAudio settings row col s Hwon Hsq Hout)
    as (s' & Hclick & Hsilent & Hthrow & Hplain).
  assert (Hmoves : moves s' = moves s + 1).
  { destruct (handleCellClick_off_grid s row col Hwon Hsq) as (s1 & Hs1 & Hm & _);
      [lia|]. rewrite Hclick in Hs1. by injection Hs1 as <-. }
  split; [|split].
  - intros Hen Hint. by apply Hthrow.
  - intros audioCtx Hs. exists s'. split; [by apply Hsilent | done].
  - intros Hen Hint. exists s'. split; [done | by apply Hplain].
Qed.

Lemma X4_off_grid_click_with_sound_throws_witness :
  handleCellClickWithSound webAudioOk true soundOn 7 7 sessionPlus = Throw TypeError ∧
  ∃ s', handleCellClickWithSound webAudioOk false soundOn 7 7 sessionPlus = Ok s' ∧
        moves s' = 1.
Proof.
  destruct (X4_off_grid_click_with_sound_throws webAudioOk soundOn 7 7 sessionPlus)
    as (Hthrow & Hsilent & _).
  - reflexivity.
  - split; [reflexivity | repeat constructor].
  - simpl; lia.
  - simpl; lia.
  - split; [apply Hthrow; reflexivity|]. apply Hsilent. reflexivity.
Defined.

(** The handler has no test on the coordinates, and with the sound switched
    off, or with no audio context, a click outside the grid is carried out:
    one step above the top-left cell of [sessionPlus] it lights that cell and
    counts as a move; far away from the grid it leaves the board alone and
    still counts as a move. *)
Lemma C9_off_grid_click_counterexample :
  hasWon sessionPlus = false ∧ square 3 (board sessionPlus) ∧ -1 < 0 ∧ 3 <= 7 ∧
  handleCellClickWithSound webAudioOk true soundOff (-1) 0 sessionPlus =
    Ok {| boardSize := 3;
          difficulty := medium;
          board := [ [ {| isOn := true |}; {| isOn := true |}; {| isOn := false |} ];
                     [ {| isOn := true |}; {| isOn := true |}; {| isOn := true |} ];
                     [ {| isOn := false |}; {| isOn := true |}; {| isOn := false |} ] ];
          moves := 1;
          hasWon := false;
          lastClick := Some (-1, 0) |} ∧
  handleCellClickWithSound webAudioOk false soundOn 7 7 sessionPlus =
    Ok {| boardSize := 3;
          difficulty := medium;
          board := board sessionPlus;
          moves := 1;
          hasWon := false;
          lastClick := Some (7, 7) |} ∧
  sessionAfterClick webAudioOk true soundOff (-1) 0 sessionPlus ≠ sessionPlus ∧
  sessionAfterClick webAudioOk false soundOn 7 7 sessionPlus ≠ sessionPlus.
Proof.
  split; [reflexivity|]. split; [split; [reflexivity | repeat constructor]|].
  split; [lia|]. split; [lia|].
  split; [reflexivity|]. split; [reflexivity|].
  split; discriminate.
Qed.

(** C9 (amended). A click outside the grid while the game is not won is not
    tested for its coordinates, and what it does depends on the click sound.
    With an audio context and the sound on and interactive (the initial
    settings), on a board of side at least 2, the handler throws a
    [TypeError] inside the sound before any state setter has run: board,
    counter of moves and won flag stay as they were.  With no audio context,
    or with the sound off, the click is a move like any other: the counter
    goes up by one, the new board is the move applied to the old board (the
    old board itself exactly when the target is not next to a cell of the
    grid), and the game is won exactly when every cell of the new board is
    off.  With the sound on but not interactive the click is that same move
    if the browser's audio calls return, and changes nothing if they
    throw. *)
Theorem C9_off_grid_click_by_sound
    (webAudio : SoundSettings → option Z → option (nat * Z) → Result unit)
    settings row col (s : AppState) :
  hasWon s = false →
  square (boardSize s) (board s) →
  row < 0 ∨ boardSize s <= row ∨ col < 0 ∨ boardSize s <= col →
  ∃ s',
    (moves s' = moves s + 1 ∧
     toggleCellAndNeighbors row col (board s) (boardSize s) = Ok (board s') ∧
     (hasWon s' = true ↔
        ∀ i j, 0 <= i < boardSize s → 0 <= j < boardSize s →
          cellOn (board s') i j = false) ∧
     (board s' = board s ↔
        ¬ (((row = -1 ∨ row = boardSize s) ∧ 0 <= col < boardSize s) ∨
           (0 <= row < boardSize s ∧ (col = -1 ∨ col = boardSize s)))) ∧
     boardSize s' = boardSize s ∧ difficulty s' = difficulty s ∧
     lastClick s' = Some (row, col)) ∧
    (enabled settings = true → interactive settings = true → 2 <= boardSize s →
       handleCellClickWithSound webAudio true settings row col s = Throw TypeError ∧
       sessionAfterClick webAudio true settings row col s = s) ∧
    (∀ audioCtx, negb audioCtx || negb (enabled settings) = true →
       handleCellClickWithSound webAudio audioCtx settings row col s = Ok s' ∧
       sessionAfterClick webAudio audioCtx settings row col s = s') ∧
    (enabled settings = true → interactive settings = false →
       handleCellClickWithSound webAudio true settings row col s =
         match webAudio settings (note (boardSize s) row col) None with
         | Ok _ => Ok s'
         | Throw e => Throw e
         end ∧
       sessionAfterClick webAudio true settings row col s =
         match webAudio settings (note (boardSize s) row col) None with
         | Ok _ => s'
         | Throw _ => s
         end).
Proof.
  intros Hwon Hsq Hout.
  assert (Hout' : ¬ (0 <= row < boardSize s ∧ 0 <= col < boardSize s)) by lia.
  destruct (off_grid_click_outcomes webAudio settings row col s Hwon Hsq Hout')
    as (s' & Hclick & Hsilent & Hthrow & Hplain).
  destruct (handleCellClick_off_grid s row col Hwon Hsq Hout)
    as (s1 & Hs1 & Hmoves & Hboard & _ & Hwin & Hsame).
  rewrite Hclick in Hs1. injection Hs1 as <-.
  exists s'. split; [|split; [|split]].
  - do 4 (split; [done|]).
    revert Hclick. unfold handleCellClick. rewrite Hwon.
    destruct (toggleCellAndNeighbors _ _ _ _) as [b'|e]; [|done].
    simpl. by intros [= <-].
  - intros Hen Hint HN. unfold sessionAfterClick.
    by rewrite (Hthrow Hen Hint HN).
  - intros audioCtx Hs. unfold sessionAfterClick.
    by rewrite (Hsilent audioCtx Hs).
  - intros Hen Hint. unfold sessionAfterClick. rewrite (Hplain Hen Hint).
    split; [done|]. by destruct (webAudio _ _ _) as [[]|e].
Qed.

Lemma C9_off_grid_click_by_sound_witness :
  handleCellClickWithSound webAudioOk true soundOn 3 1 sessionPlus = Throw TypeError ∧
  sessionAfterClick webAudioOk true soundOn 3 1 sessionPlus = sessionPlus ∧
  ∃ s', handleCellClickWithSound webAudioOk false soundOn 3 1 sessionPlus = Ok s' ∧
        moves s' = 1 ∧ board s' ≠ board sessionPlus.
Proof.
  destruct (C9_off_grid_click_by_sound webAudioOk soundOn 3 1 sessionPlus)
    as (s' & (Hmoves & _ & _ & Hsame & _) & Hthrow & Hsilent & _).
  - reflexivity.
  - split; [reflexivity | repeat constructor].
  - simpl; lia.
  - destruct Hthrow as [Hthrow Hafter]; [reflexivity | reflexivity | simpl; lia |].
    destruct (Hsilent false) as [Hok _]; [reflexivity|].
    split; [exact Hthrow|]. split; [exact Hafter|].
    exists s'. split; [exact Hok|]. split; [exact Hmoves|].
    intros Heq. apply Hsame in Heq. apply Heq. simpl. lia.
Defined.

(** X5. A click on a cell of the grid while the game is not won never fails
    in the application's own code: the lit neighbours are counted on the new
    board without a throw, and the handler ends as [handleCellClick] does
    unless the browser's audio calls throw, in which case their error comes
    out and no state is set. *)
Theorem X5_grid_click_with_sound
    (webAudio : SoundSettings → option Z → option (nat * Z) → Result unit)
    audioCtx settings row col (s : AppState) :
  hasWon s = false →
  square (boardSize s) (board s) →
  0 <= row < boardSize s → 0 <= col < boardSize s →
  ∃ s' k,
    handleCellClick row col s = Ok s' ∧
    getActiveNeighbors row col (board s') (boardSize s) = Ok k ∧
    handleCellClickWithSound webAudio audioCtx settings row col s =
      if negb audioCtx || negb (enabled settings) then Ok s'
      else
        match webAudio settings (note (boardSize s) row col)
                (if interactive settings
                 then Some (length (List.filter isOn (concat (board s'))), k)
                 else None) with
        | Ok _ => Ok s'
        | Throw e => Throw e
        end.
Proof.
  intros Hwon Hsq Hr Hc.
  unfold handleCellClickWithSound, handleCellClick. rewrite Hwon.
  destruct (toggleCellAndNeighbors_spec (boardSize s) row col (board s) Hsq)
    as (b' & Heq & Hsq' & _).
  rewrite Heq. cbn [mbind Result_bind].
  eexists _, _. split; [done|]. cbn [board].
  split; [by apply getActiveNeighbors_grid|].
  unfold playSoundClick.
  destruct (negb audioCtx || negb (enabled settings)); [done|].
  destruct (interactive settings).
  - rewrite (getActiveNeighbors_grid (boardSize s) b' row col Hsq' Hr Hc).
    cbn [mbind Result_bind]. by destruct (webAudio _ _ _) as [[]|e].
  - by destruct (webAudio _ _ _) as [[]|e].
Qed.

Lemma X5_grid_click_with_sound_witness :
  ∃ s', handleCellClickWithSound webAudioOk true soundOn 1 1 sessionPlus = Ok s' ∧
        handleCellClick 1 1 sessionPlus = Ok s'.
Proof.
  destruct (X5_grid_click_with_sound webAudioOk true soundOn 1 1 sessionPlus)
    as (s' & k & Hclick & _ & Hsound).
  - reflexivity.
  - split; [reflexivity | repeat constructor].
  - simpl; lia.
  - simpl; lia.
  - exists s'. split; [exact Hsound | exact Hclick].
Defined.

(** ** The note of a click *)

(** [Math.round(a / q)] for integers and a positive divisor, in integer
    arithmetic. *)
Lemma round_quotient a q :
  0 < q →
  Qfloor (inject_Z a / inject_Z q + 0.5) = (2 * a + q) `div` (2 * q).
Proof.
  intros Hq. rewrite Zdiv_Qdiv. apply Qfloor_comp.
  rewrite !inject_Z_plus, !inject_Z_mult.
  assert (Hq' : ¬ inject_Z q == 0).
  { unfold Qeq, inject_Z. simpl. lia. }
  field. done.
Qed.

Lemma scaleIndex_formula N row col :
  2 <= N →
  scaleIndex N row col =
    Some ((18 * (row * N + col) + (N * N - 1)) `div` (2 * (N * N - 1))).
Proof.
  intros HN. unfold scaleIndex.
  destruct (Z.eqb_spec (N * N - 1) 0) as [E|_]; [nia|].
  change (Z.of_nat (length pentatonicSteps) - 1) with 9.
  rewrite round_quotient by nia. do 2 f_equal. lia.
Qed.

(** X6. The note of a click is defined exactly on boards of side at least 2.
    There every cell of the grid gets one of the ten steps of the scale, from
    0 to 21 semitones, the first cell the lowest and the last cell the
    highest.  On a 1 x 1 board the scale index is not a number and the
    note is [undefined]. *)
Theorem X6_note_of_grid_cell N row col :
  1 <= N → 0 <= row < N → 0 <= col < N →
  (is_Some (note N row col) ↔ 2 <= N) ∧
  (∀ n, note N row col = Some n → n ∈ pentatonicSteps ∧ 0 <= n <= 21) ∧
  (2 <= N → note N 0 0 = Some 0 ∧ note N (N - 1) (N - 1) = Some 21).
Proof.
  intros HN Hr Hc.
  assert (Hdef : 2 <= N → ∃ i, scaleIndex N row col = Some i ∧ 0 <= i <= 9).
  { intros H2. rewrite scaleIndex_formula by done. eexists. split; [done|].
    split.
    - apply Z.div_pos; nia.
    - apply Z.lt_succ_r. apply Z.div_lt_upper_bound; nia. }
  assert (Hsteps : ∀ i, 0 <= i <= 9 →
            ∃ n, jsIndex pentatonicSteps i = Some n ∧ n ∈ pentatonicSteps ∧ 0 <= n <= 21).
  { intros i Hi.
    assert (i = 0 ∨ i = 1 ∨ i = 2 ∨ i = 3 ∨ i = 4 ∨ i = 5 ∨ i = 6 ∨ i = 7 ∨ i = 8 ∨ i = 9)
      as Hcases by lia.
    repeat (destruct Hcases as [-> | Hcases]); try subst i;
      (eexists; split; [reflexivity|]; split; [repeat constructor | lia]). }
  split; [|split].
  - split.
    + intros [n Hn]. destruct (decide (2 <= N)); [done|].
      assert (N = 1) as -> by lia. by vm_compute in Hn.
    + intros H2. destruct (Hdef H2) as (i & Hi & Hrange).
      destruct (Hsteps i Hrange) as (n & Hn & _).
      exists n. unfold note. rewrite Hi. done.
  - intros n Hn. destruct (decide (2 <= N)) as [H2|H1].
    + destruct (Hdef H2) as (i & Hi & Hrange).
      destruct (Hsteps i Hrange) as (n' & Hn' & Hmem & Hb).
      unfold note in Hn. rewrite Hi in Hn. simpl in Hn.
      rewrite Hn' in Hn. by injection Hn as <-.
    + assert (N = 1) as -> by lia. by vm_compute in Hn.
  - intros H2. unfold note. rewrite !scaleIndex_formula by done. split.
    + replace (18 * (0 * N + 0) + (N * N - 1)) with (N * N - 1) by lia.
      rewrite Z.div_small by nia. reflexivity.
    + replace ((18 * ((N - 1) * N + (N - 1)) + (N * N - 1)) `div` (2 * (N * N - 1)))
        with 9; [reflexivity|].
      apply Z.div_unique with (r := N * N - 1); nia.
Qed.

Lemma X6_note_of_grid_cell_witness :
  note 3 1 1 = Some 12 ∧ 12 ∈ pentatonicSteps ∧ note 3 0 0 = Some 0 ∧
  note 3 2 2 = Some 21.
Proof.
  destruct (X6_note_of_grid_cell 3 1 1) as (_ & Hsteps & Hends); [lia..|].
  destruct (Hsteps 12) as [Hmem _]; [reflexivity|].
  destruct Hends as [Hfirst Hlast]; [lia|].
  split; [reflexivity|]. split; [exact Hmem|]. split; [exact Hfirst | exact Hlast].
Defined.

(** ** Reset *)

(** The generator returns a board only for a side of at least 1; the board
    is then square of that side and not all off. *)
Lemma createSolvableBoard_Ok {Rng : Type} (randomIndex : Z → Rng → Z * Rng)
    stack N d g (b : Board) g' :
  createSolvableBoard randomIndex stack N d g = Ok (b, g') →
  1 <= N ∧ square N b ∧ everyOff b = false.
Proof.
  intros Hrun.
  destruct (Z.ltb_spec N 0) as [Hneg|Hnn].
  - exfalso. revert g Hrun. induction stack as [|stack IH]; intros g; simpl; [done|].
    unfold scrambleOnce, emptyBoard.
    destruct (Z.ltb_spec N 0); [done | lia].
  - destruct (createSolvableBoard_returns randomIndex N d stack g b g' Hnn Hrun)
      as (g0 & Honce & Hlit).
    destruct (scrambleOnce_spec randomIndex N d g0 Hnn) as (b0 & Heq & _ & Hsq).
    simpl in Heq. rewrite Honce in Heq. injection Heq as <- _.
    split; [|done].
    destruct (decide (N = 0)) as [->|]; [|lia].
    destruct Hsq as [Hlen _]. destruct b; [done | simpl in Hlen; lia].
Qed.

Lemma executeReset_Ok {Rng : Type} (randomIndex : Z → Rng → Z * Rng) stack
    newSize newDifficulty a g a' g' :
  executeReset randomIndex stack newSize newDifficulty a g = Ok (a', g') →
  let N := default (boardSize (game a)) (truthySize newSize) in
  let d := default (difficulty (game a)) newDifficulty in
  ∃ b : Board,
    createSolvableBoard randomIndex stack N d g = Ok (b, g') ∧
    a' = {| game := {| boardSize := N; difficulty := d; board := b; moves := 0;
                       hasWon := false; lastClick := lastClick (game a) |};
            showResetConfirm := false;
            pendingResetConfig := None |}.
Proof.
  intros Hrun N d. unfold executeReset in Hrun. fold N d in Hrun.
  destruct (createSolvableBoard randomIndex stack N d g) as [[b g1]|e]; [|done].
  simpl in Hrun. injection Hrun as <- <-. exists b. split; [done|].
  do 2 f_equal.
  - subst N. destruct (truthySize newSize) as [n|]; simpl; [|done].
    case_bool_decide; [done|]. by destruct (decide (n = boardSize (game a))).
  - subst d. destruct newDifficulty as [d'|]; simpl; [|done].
    case_bool_decide; [done|]. by destruct (decide (d' = difficulty (game a))).
Qed.

(** X7. When [executeReset] returns, the size hook is the side of the new
    board: the requested size if it is given and not 0, the old size
    otherwise (the same holds for the difficulty).  The new board is square
    of that side, of side at least 1 and not all off; the counter of moves is
    0, the game is not won, and the confirmation dialog is closed. *)
Theorem X7_executeReset_result {Rng : Type} (randomIndex : Z → Rng → Z * Rng) stack
    newSize newDifficulty (a a' : AppHooks) g g' :
  executeReset randomIndex stack newSize newDifficulty a g = Ok (a', g') →
  boardSize (game a') = default (boardSize (game a)) (truthySize newSize) ∧
  difficulty (game a') = default (difficulty (game a)) newDifficulty ∧
  1 <= boardSize (game a') ∧
  square (boardSize (game a')) (board (game a')) ∧
  everyOff (board (game a')) = false ∧
  moves (game a') = 0 ∧
  hasWon (game a') = false ∧
  showResetConfirm a' = false ∧
  pendingResetConfig a' = None.
Proof.
  intros Hrun. apply executeReset_Ok in Hrun as (b & Hgen & ->). simpl.
  apply createSolvableBoard_Ok in Hgen as (HN & Hsq & Hlit).
  repeat (split; [done|]). done.
Qed.

(** A session of two moves, with the dialog closed. *)
Lemma X7_executeReset_result_witness :
  ∃ a' g',
    executeReset lcgIndex 4 (Some 4) None
      {| game := sessionPlus; showResetConfirm := false; pendingResetConfig := None |}
      2024 = Ok (a', g') ∧
    boardSize (game a') = 4 ∧ square 4 (board (game a')) ∧ moves (game a') = 0.
Proof.
  destruct (executeReset lcgIndex 4 (Some 4) None
              {| game := sessionPlus; showResetConfirm := false;
                 pendingResetConfig := None |} 2024) as [[a' g']|e] eqn:Hrun;
    [|vm_compute in Hrun; discriminate Hrun].
  destruct (X7_executeReset_result lcgIndex 4 (Some 4) None _ a' 2024 g' Hrun)
    as (Hsize & _ & _ & Hsq & _ & Hmoves & _).
  exists a', g'. split; [reflexivity|]. split; [exact Hsize|].
  split; [|exact Hmoves]. rewrite Hsize in Hsq. exact Hsq.
Defined.

(** X8. [resetGame] on a game in progress (moves made, not won) resets
    nothing: it leaves the game and the random source as they are and opens
    the dialog with the request.  Confirming then does exactly what
    [executeReset] would have done at once, and cancelling gives back the
    state before the request.  On a game with no move, or a won one,
    [resetGame] is [executeReset]. *)
Theorem X8_resetGame_asks_first {Rng : Type} (randomIndex : Z → Rng → Z * Rng) stack
    newSize newDifficulty (a : AppHooks) g :
  (0 < moves (game a) → hasWon (game a) = false →
   ∃ a1,
     resetGame randomIndex stack newSize newDifficulty a g = Ok (a1, g) ∧
     game a1 = game a ∧
     showResetConfirm a1 = true ∧
     confirmReset randomIndex stack a1 g =
       executeReset randomIndex stack newSize newDifficulty a g ∧
     (showResetConfirm a = false → pendingResetConfig a = None →
      cancelReset a1 = a)) ∧
  (moves (game a) <= 0 ∨ hasWon (game a) = true →
   resetGame randomIndex stack newSize newDifficulty a g =
     executeReset randomIndex stack newSize newDifficulty a g).
Proof.
  split.
  - intros Hmoves Hwon. unfold resetGame. rewrite Z.gtb_ltb, Hwon.
    destruct (Z.ltb_spec 0 (moves (game a))); [|lia]. simpl.
    eexists. split; [done|]. simpl. split; [done|]. split; [done|]. split; [done|].
    intros Hshow Hpend. destruct a as [s sh p]. simpl in *. by subst.
  - intros Hidle. unfold resetGame. rewrite Z.gtb_ltb.
    destruct (Z.ltb_spec 0 (moves (game a))); simpl; [|done].
    destruct Hidle as [? | ->]; [lia | done].
Qed.

Lemma X8_resetGame_asks_first_witness :
  let a := {| game := {| boardSize := 3; difficulty := medium;
                         board := board sessionPlus; moves := 2; hasWon := false;
                         lastClick := Some (0, 0) |};
              showResetConfirm := false; pendingResetConfig := None |} in
  ∃ a1,
    resetGame lcgIndex 4 (Some 5) None a 2024 = Ok (a1, 2024) ∧
    game a1 = game a ∧
    pendingResetConfig a1 = Some (Some 5, None) ∧
    confirmReset lcgIndex 4 a1 2024 = executeReset lcgIndex 4 (Some 5) None a 2024 ∧
    cancelReset a1 = a.
Proof.
  intros a.
  destruct (X8_resetGame_asks_first lcgIndex 4 (Some 5) None a 2024) as [Hask _].
  destruct Hask as (a1 & Hreset & Hgame & _ & Hconfirm & Hcancel).
  - simpl; lia.
  - reflexivity.
  - exists a1. split; [exact Hreset|]. split; [exact Hgame|].
    split; [|split; [exact Hconfirm | apply Hcancel; reflexivity]].
    assert (E : resetGame lcgIndex 4 (Some 5) None a 2024
                = Ok ({| game := game a; showResetConfirm := true;
                         pendingResetConfig := Some (Some 5, None) |}, 2024))
      by reflexivity.
    rewrite E in Hreset. injection Hreset as <-. reflexivity.
Defined.

(** ** The states of the application *)

Lemma click_keeps_invariant (a : AppHooks) row col s' :
  appInvariant a →
  handleCellClick row col (game a) = Ok s' →
  appInvariant {| game := s';
                  showResetConfirm := showResetConfirm a;
                  pendingResetConfig := pendingResetConfig a |}.
Proof.
  intros (HN & Hsq & Hwon & Hmoves & Hwonmoves & Hdialog).
  unfold handleCellClick.
  destruct (hasWon (game a)) eqn:Hw.
  - intros [= <-]. unfold appInvariant. simpl. rewrite Hw. done.
  - destruct (toggleCellAndNeighbors_spec (boardSize (game a)) row col
                (board (game a)) Hsq) as (b' & Heq & Hsq' & _).
    rewrite Heq. simpl. intros [= <-]. unfold appInvariant. simpl.
    split; [done|]. split; [done|]. split; [by destruct (everyOff b')|].
    split; [lia|]. split; [intros _; lia | done].
Qed.

Lemma executeReset_gives_invariant {Rng : Type} (randomIndex : Z → Rng → Z * Rng)
    stack newSize newDifficulty (a a' : AppHooks) g g' :
  executeReset randomIndex stack newSize newDifficulty a g = Ok (a', g') →
  appInvariant a'.
Proof.
  intros Hrun. apply executeReset_Ok in Hrun as (b & Hgen & ->).
  apply createSolvableBoard_Ok in Hgen as (HN & Hsq & Hlit).
  unfold appInvariant. simpl. rewrite Hlit.
  split; [done|]. split; [done|]. split; [done|]. split; [done|].
  split; [done|]. split; [done|]. by intros [? ?].
Qed.

Lemma step_keeps_invariant {Rng : Type} (randomIndex : Z → Rng → Z * Rng) stack
    webAudio act (a a' : AppHooks) g g' :
  appInvariant a →
  step randomIndex stack webAudio act a g = Ok (a', g') →
  appInvariant a'.
Proof.
  intros Hinv. destruct act as [audioCtx settings row col|newSize newDiff| |]; simpl.
  - destruct (handleCellClickWithSound _ _ _ _ _ _) as [s'|e] eqn:Hclick; [|done].
    simpl. intros [= <- <-].
    apply handleCellClickWithSound_returns in Hclick.
    by apply (click_keeps_invariant a row col).
  - unfold resetGame.
    destruct ((moves (game a) >? 0) && negb (hasWon (game a))).
    + intros [= <- <-].
      destruct Hinv as (HN & Hsq & Hwon & Hmoves & Hwonmoves & _).
      unfold appInvariant. simpl. do 5 (split; [done|]). split; [eauto | done].
    + apply executeReset_gives_invariant.
  - apply executeReset_gives_invariant.
  - intros [= <- <-].
    destruct Hinv as (HN & Hsq & Hwon & Hmoves & Hwonmoves & _).
    unfold appInvariant. simpl. do 5 (split; [done|]).
    split; [done | by intros [? ?]].
Qed.

(** X9. In every state the application reaches from its initial state, by
    any sequence of cell clicks, reset requests, confirmations and
    cancellations that does not throw: the size hook is at least 1 and is the
    side of the square board; the game is marked won exactly when every cell
    of the board is off; the counter of moves is not negative, and at least 1
    when the game is won; and the dialog is shown exactly when a reset
    request is pending. *)
Theorem X9_reachable_states {Rng : Type} (randomIndex : Z → Rng → Z * Rng) stack
    webAudio acts (a0 a : AppHooks) g g0 g' :
  initialApp randomIndex stack g = Ok (a0, g0) →
  run randomIndex stack webAudio acts a0 g0 = Ok (a, g') →
  appInvariant a.
Proof.
  intros Hinit Hrun.
  assert (Hinv0 : appInvariant a0).
  { unfold initialApp in Hinit.
    destruct (createSolvableBoard randomIndex stack 3 medium g) as [[b g1]|e] eqn:Hgen;
      [|done].
    simpl in Hinit. injection Hinit as <- <-.
    apply createSolvableBoard_Ok in Hgen as (_ & Hsq & Hlit).
    unfold appInvariant. simpl. rewrite Hlit.
    split; [lia|]. do 4 (split; [done|]). split; [done | by intros [? ?]]. }
  clear Hinit. revert a0 g0 Hinv0 Hrun.
  induction acts as [|act acts IH]; intros a0 g0 Hinv0; simpl.
  - by intros [= <- <-].
  - destruct (step randomIndex stack webAudio act a0 g0) as [[a1 g1]|e] eqn:Hstep;
      [|done].
    simpl. apply IH. by eapply step_keeps_invariant.
Qed.

Lemma X9_reachable_states_witness :
  ∃ a0 g0 a g',
    initialApp lcgIndex 4 2024 = Ok (a0, g0) ∧
    run lcgIndex 4 webAudioOk
      [CellClick true soundOn 1 1; ResetGame (Some 4) None; ConfirmReset;
       CellClick false soundOn 0 3] a0 g0 = Ok (a, g') ∧
    appInvariant a.
Proof.
  destruct (initialApp lcgIndex 4 2024) as [[a0 g0]|e] eqn:Hinit;
    [|vm_compute in Hinit; discriminate Hinit].
  destruct (run lcgIndex 4 webAudioOk
              [CellClick true soundOn 1 1; ResetGame (Some 4) None; ConfirmReset;
               CellClick false soundOn 0 3] a0 g0) as [[a g']|e] eqn:Hrun.
  - exists a0, g0, a, g'. split; [reflexivity|]. split; [exact Hrun|].
    exact (X9_reachable_states lcgIndex 4 webAudioOk _ a0 a 2024 g0 g' Hinit Hrun).
  - exfalso. vm_compute in Hinit. injection Hinit as <- <-.
    vm_compute in Hrun. discriminate Hrun.
Defined.

(** ** The board component *)

Lemma clickHits_plusCells N row col : clickHits N row col = plusCells N row col.
Proof.
  unfold clickHits, plusCells.
  generalize [(row, col); (row - 1, col); (row + 1, col); (row, col - 1); (row, col + 1)].
  intros l. induction l as [|[r c] l IH]; [done|].
  cbn [List.filter]. rewrite filter_cons, IH.
  destruct ((r >=? 0) && (r <? N) && (c >=? 0) && (c <? N)) eqn:Hg.
  - apply guard_true in Hg. by rewrite decide_True.
  - apply guard_false in Hg. by rewrite decide_False.
Qed.

(** X10. After a click that the handler carries out, the cells that
    [ClickEffects] marks as hit around [lastClick], with the length of the
    new board as size, are exactly the cells of the board that the click has
    changed, each marked once. *)
Theorem X10_click_effects_mark_flipped_cells (s s' : AppState) row col :
  hasWon s = false →
  0 <= boardSize s →
  square (boardSize s) (board s) →
  handleCellClick row col s = Ok s' →
  lastClick s' = Some (row, col) ∧
  NoDup (clickHits (Z.of_nat (length (board s'))) row col) ∧
  clickHits (Z.of_nat (length (board s'))) row col
    ≡ₚ flippedCells (boardSize s) (board s) (board s').
Proof.
  intros Hwon HN Hsq. unfold handleCellClick. rewrite Hwon.
  destruct (toggleCellAndNeighbors_spec (boardSize s) row col (board s) Hsq)
    as (b' & Heq & Hsq' & _).
  rewrite Heq. simpl. intros [= <-]. simpl. split; [done|].
  assert (Z.of_nat (length b') = boardSize s) as -> by (destruct Hsq'; lia).
  rewrite clickHits_plusCells. split; [apply NoDup_plusCells|].
  symmetry. by apply flippedCells_move.
Qed.

Lemma X10_click_effects_mark_flipped_cells_witness :
  ∃ s', handleCellClick 0 0 sessionPlus = Ok s' ∧
        clickHits (Z.of_nat (length (board s'))) 0 0 = [(0, 0); (1, 0); (0, 1)] ∧
        clickHits (Z.of_nat (length (board s'))) 0 0
          ≡ₚ flippedCells 3 (board sessionPlus) (board s').
Proof.
  destruct (handleCellClick 0 0 sessionPlus) as [s'|e] eqn:Hclick;
    [|vm_compute in Hclick; discriminate Hclick].
  destruct (X10_click_effects_mark_flipped_cells sessionPlus s' 0 0)
    as (_ & _ & Hperm).
  - reflexivity.
  - simpl; lia.
  - split; [reflexivity | repeat constructor].
  - exact Hclick.
  - exists s'. split; [reflexivity|]. split; [|exact Hperm].
    vm_compute in Hclick. injection Hclick as <-. reflexivity.
Defined.

Lemma bind_seqZ_0 {B : Type} (f : Z → list B) (l : list nat) :
  ((λ i : nat, Z.of_nat i + 0) <$> l) ≫= f = concat ((λ i, f (Z.of_nat i)) <$> l).
Proof.
  induction l as [|i l IH]; [done|].
  rewrite !fmap_cons, bind_cons, IH. simpl. by rewrite Z.add_0_r.
Qed.

Lemma gridCells_positions N (b : Board) :
  square N b → gridCells b = positions N.
Proof.
  intros [Hlen Hrows]. unfold gridCells, positions, seqZ.
  rewrite bind_seqZ_0. f_equal.
  rewrite <- Hlen, <- (imap_seq_0 b). apply imap_ext.
  intros i cells Hcells. simpl.
  rewrite Forall_lookup in Hrows. specialize (Hrows _ _ Hcells). simpl in Hrows.
  rewrite imap_seq_0, Hrows, bind_seqZ_0, Hlen.
  induction (seq 0 (Z.to_nat N)) as [|j l IH]; [done|].
  rewrite !fmap_cons. cbn [concat app]. by rewrite IH.
Qed.

(** X11. On a square board [GameBoard] renders one cell button for each
    position of the grid, row by row, and each button passes its own
    position to the click handler: the clicks that come from the grid are
    exactly the positions of the grid, none twice. *)
Theorem X11_grid_buttons_are_the_positions N (b : Board) :
  square N b →
  gridCells b = positions N ∧
  NoDup (gridCells b) ∧
  ∀ p, p ∈ gridCells b ↔ 0 <= p.1 < N ∧ 0 <= p.2 < N.
Proof.
  intros Hsq. rewrite (gridCells_positions N b Hsq).
  split; [done|]. split; [apply NoDup_positions|].
  intros p. apply elem_of_positions.
Qed.

Lemma X11_grid_buttons_are_the_positions_witness :
  gridCells (board sessionPlus) =
    [(0, 0); (0, 1); (0, 2); (1, 0); (1, 1); (1, 2); (2, 0); (2, 1); (2, 2)].
Proof.
  destruct (X11_grid_buttons_are_the_positions 3 (board sessionPlus)) as [Heq _].
  - split; [reflexivity | repeat constructor].
  - rewrite Heq. reflexivity.
Defined.

(** A loop whose body does not throw collects the pushes of its
    iterations in order. *)
Lemma forLoop_pure {A : Type} (body : Z → Result (list A)) (f : Z → list A) n :
  ∀ i, (∀ x, i <= x < i + Z.of_nat n → body x = Ok (f x)) →
       forLoop body i n = Ok (seqZ i (Z.of_nat n) ≫= f).
Proof.
  induction n as [|n IH]; intros i Hbody; [done|].
  cbn [forLoop]. rewrite Hbody by lia. cbn [mbind Result_bind].
  rewrite IH by (intros x Hx; apply Hbody; lia). cbn [mbind Result_bind].
  rewrite (seqZ_cons i) by lia. rewrite bind_cons.
  by replace (Z.pred (Z.of_nat (S n))) with (Z.of_nat n) by lia.
Qed.

Lemma rowLength_grid N (b : Board) r :
  square N b → 0 <= r < N → rowLength b r = Ok N.
Proof.
  intros Hsq Hr. unfold rowLength, jsIndex.
  destruct (Z.ltb_spec r 0); [lia|].
  destruct (square_lookup N b r Hsq Hr) as (cells & -> & Hlen).
  f_equal. lia.
Qed.

Lemma cellPathways_grid N (b : Board) r c :
  square N b → 0 <= r < N → 0 <= c < N →
  cellPathways b N r c = Ok (pathAt N b r c).
Proof.
  intros Hsq Hr Hc. unfold cellPathways, pathAt.
  rewrite (readIsOn_grid N b r c Hsq Hr Hc). cbn [mbind Result_bind].
  destruct (cellOn b r c); [|done].
  rewrite (rowLength_grid N b r Hsq Hr). cbn [mbind Result_bind].
  destruct (Z.ltb_spec (c + 1) N); destruct (Z.ltb_spec (r + 1) N);
    cbn [andb mbind Result_bind];
    repeat match goal with
      | |- context [readIsOn b ?i ?j] =>
          rewrite (readIsOn_grid N b i j Hsq) by lia; cbn [mbind Result_bind]
      end;
    done.
Qed.

Lemma pathways_grid N (b : Board) :
  square N b → 0 <= N →
  pathways b false = Ok (r ← seqZ 0 N; c ← seqZ 0 N; pathAt N b r c).
Proof.
  intros Hsq HN. unfold pathways.
  assert (Hlen : length b = Z.to_nat N) by (by destruct Hsq).
  assert (HlenZ : Z.of_nat (length b) = N) by lia.
  rewrite HlenZ, Hlen.
  rewrite (forLoop_pure _ (λ r, seqZ 0 N ≫= pathAt N b r)).
  - by rewrite Z2Nat.id.
  - intros r Hr. rewrite (rowLength_grid N b r Hsq) by lia.
    cbn [mbind Result_bind].
    rewrite (forLoop_pure _ (pathAt N b r)).
    + by rewrite Z2Nat.id.
    + intros c Hc. apply cellPathways_grid; [done | lia | lia].
Qed.

Lemma elem_of_pathAt N (b : Board) r c p :
  p ∈ pathAt N b r c ↔
  cellOn b r c = true ∧
  ((p = horizontal r c ∧ c + 1 < N ∧ cellOn b r (c + 1) = true) ∨
   (p = vertical r c ∧ r + 1 < N ∧ cellOn b (r + 1) c = true)).
Proof.
  unfold pathAt.
  destruct (cellOn b r c); [|rewrite elem_of_nil; split; [done | by intros [? _]]].
  rewrite elem_of_app.
  destruct (Z.ltb_spec (c + 1) N); destruct (Z.ltb_spec (r + 1) N);
    destruct (cellOn b r (c + 1)); destruct (cellOn b (r + 1) c);
    cbn [andb]; rewrite ?list_elem_of_singleton, ?elem_of_nil;
    intuition (first [lia | discriminate | done]).
Qed.

Lemma NoDup_pathAt N (b : Board) r c : NoDup (pathAt N b r c).
Proof.
  unfold pathAt.
  destruct (cellOn b r c); [|apply NoDup_nil_2].
  destruct ((c + 1 <? N) && cellOn b r (c + 1));
    destruct ((r + 1 <? N) && cellOn b (r + 1) c); simpl;
    repeat (apply NoDup_cons_2;
            [rewrite ?elem_of_cons, elem_of_nil; intros H;
             repeat (destruct H as [H|H]; [discriminate|]); done|]);
    apply NoDup_nil_2.
Qed.

(** X12. On a square board [GameBoard] computes its connecting lines
    without a throw.  While the game is not won there is a horizontal line
    for each pair of lit cells that are neighbours in a row and a vertical
    line for each pair of lit cells that are neighbours in a column, each
    once and nothing else; once the game is won there is none. *)
Theorem X12_pathways_join_lit_neighbours N (b : Board) :
  square N b → 0 <= N →
  pathways b true = Ok [] ∧
  ∃ ps, pathways b false = Ok ps ∧
    NoDup ps ∧
    (∀ r c, horizontal r c ∈ ps ↔
       0 <= r < N ∧ 0 <= c ∧ c + 1 < N ∧
       cellOn b r c = true ∧ cellOn b r (c + 1) = true) ∧
    (∀ r c, vertical r c ∈ ps ↔
       0 <= r ∧ r + 1 < N ∧ 0 <= c < N ∧
       cellOn b r c = true ∧ cellOn b (r + 1) c = true).
Proof.
  intros Hsq HN. split; [done|].
  eexists. split; [by apply pathways_grid|].
  assert (Hmem : ∀ p, p ∈ (seqZ 0 N ≫= λ r, seqZ 0 N ≫= λ c, pathAt N b r c) ↔
            ∃ r c, 0 <= r < N ∧ 0 <= c < N ∧ p ∈ pathAt N b r c).
  { intros p. rewrite list_elem_of_bind. split.
    - intros (r & Hp & Hr). apply list_elem_of_bind in Hp as (c & Hp & Hc).
      apply elem_of_seqZ in Hr, Hc. exists r, c. split; [lia|]. split; [lia|done].
    - intros (r & c & Hr & Hc & Hp). exists r. split; [|apply elem_of_seqZ; lia].
      apply list_elem_of_bind. exists c. split; [done|]. apply elem_of_seqZ; lia. }
  split; [|split].
  - apply NoDup_bind; [| |apply NoDup_seqZ].
    + intros r1 r2 p _ _ H1 H2.
      apply list_elem_of_bind in H1 as (c1 & H1 & _).
      apply list_elem_of_bind in H2 as (c2 & H2 & _).
      apply elem_of_pathAt in H1 as [_ H1]. apply elem_of_pathAt in H2 as [_ H2].
      destruct H1 as [(-> & _)|(-> & _)], H2 as [(H2 & _)|(H2 & _)]; congruence.
    + intros r _. apply NoDup_bind; [| |apply NoDup_seqZ].
      * intros c1 c2 p _ _ H1 H2.
        apply elem_of_pathAt in H1 as [_ H1]. apply elem_of_pathAt in H2 as [_ H2].
        destruct H1 as [(-> & _)|(-> & _)], H2 as [(H2 & _)|(H2 & _)]; congruence.
      * intros c _. apply NoDup_pathAt.
  - intros r c. rewrite Hmem. split.
    + intros (r' & c' & Hr & Hc & Hp). apply elem_of_pathAt in Hp.
      destruct Hp as [Hon [(Heq & Hlt & Hon') | (Heq & _)]]; [|done].
      injection Heq as -> ->. repeat split; try done; lia.
    + intros (Hr & Hc & Hlt & Hon & Hon'). exists r, c.
      split; [done|]. split; [lia|]. apply elem_of_pathAt.
      split; [done|]. left. done.
  - intros r c. rewrite Hmem. split.
    + intros (r' & c' & Hr & Hc & Hp). apply elem_of_pathAt in Hp.
      destruct Hp as [Hon [(Heq & _) | (Heq & Hlt & Hon')]]; [done|].
      injection Heq as -> ->. repeat split; try done; lia.
    + intros (Hr & Hlt & Hc & Hon & Hon'). exists r, c.
      split; [lia|]. split; [done|]. apply elem_of_pathAt.
      split; [done|]. right. done.
Qed.

Lemma X12_pathways_join_lit_neighbours_witness :
  pathways (board sessionPlus) false =
    Ok [vertical 0 1; horizontal 1 0; horizontal 1 1; vertical 1 1] ∧
  pathways (board sessionPlus) true = Ok [].
Proof.
  destruct (X12_pathways_join_lit_neighbours 3 (board sessionPlus)) as [Hwon _].
  - split; [reflexivity | repeat constructor].
  - lia.
  - split; [reflexivity | exact Hwon].
Defined.

(** X13. With a palette that is not empty, [getCellColor] gives every cell
    with non-negative coordinates a colour of the palette; with a palette of
    at least two different colours, a cell never has the colour of its right
    or lower neighbour.  With an empty palette the result is [undefined]. *)
Theorem X13_getCellColor_neighbours_differ {A : Type} (colors : list A) r c :
  0 <= r → 0 <= c →
  (colors = [] → getCellColor r c colors = None) ∧
  (colors ≠ [] → ∃ x, getCellColor r c colors = Some x ∧ x ∈ colors) ∧
  (NoDup colors → (2 <= length colors)%nat →
   getCellColor r c colors ≠ getCellColor r (c + 1) colors ∧
   getCellColor r c colors ≠ getCellColor (r + 1) c colors).
Proof.
  intros Hr Hc.
  assert (Hidx : ∀ a, 0 <= a → colors ≠ [] →
            getCellColor (a - c) c colors
              = colors !! Z.to_nat (a `mod` Z.of_nat (length colors)) ∧
            (Z.to_nat (a `mod` Z.of_nat (length colors)) < length colors)%nat).
  { intros a Ha Hne. unfold getCellColor, jsIndex.
    assert (0 < Z.of_nat (length colors)) by (destruct colors; [done | simpl; lia]).
    destruct (Z.eqb_spec (Z.of_nat (length colors)) 0); [lia|].
    replace (a - c + c) with a by lia.
    rewrite Z.rem_mod_nonneg by lia.
    pose proof (Z.mod_pos_bound a (Z.of_nat (length colors))).
    destruct (Z.ltb_spec (a `mod` Z.of_nat (length colors)) 0); [lia|].
    split; [done | lia]. }
  split; [by intros ->|]. split.
  - intros Hne. destruct (Hidx (r + c)) as [Heq Hlt]; [lia | done |].
    replace (r + c - c) with r in Heq by lia.
    destruct (lookup_lt_is_Some_2 colors _ Hlt) as [x Hx].
    exists x. rewrite Heq. split; [done|]. by eapply list_elem_of_lookup_2.
  - intros Hnd Hlen.
    assert (Hne : colors ≠ []) by (destruct colors; [simpl in Hlen; lia | done]).
    destruct (Hidx (r + c)) as [Heq Hlt]; [lia | done |].
    destruct (Hidx (r + c + 1)) as [Heq' Hlt']; [lia | done |].
    replace (r + c - c) with r in Heq by lia.
    replace (r + c + 1 - c) with (r + 1) in Heq' by lia.
    assert (Hsame : getCellColor r (c + 1) colors = getCellColor (r + 1) c colors).
    { unfold getCellColor. by replace (r + (c + 1)) with (r + 1 + c) by lia. }
    rewrite Hsame. split; rewrite Heq, Heq'; intros Hcol.
    all: destruct (lookup_lt_is_Some_2 colors _ Hlt) as [x Hx].
    all: rewrite Hx in Hcol; symmetry in Hcol.
    all: pose proof (NoDup_lookup colors _ _ x Hnd Hx Hcol) as Hi.
    all: set (L := Z.of_nat (length colors)) in *.
    all: assert (HL : 2 <= L) by (subst L; lia).
    all: pose proof (Z.div_mod (r + c) L ltac:(lia)) as D1.
    all: pose proof (Z.div_mod (r + c + 1) L ltac:(lia)) as D2.
    all: pose proof (Z.mod_pos_bound (r + c) L ltac:(lia)) as B1.
    all: pose proof (Z.mod_pos_bound (r + c + 1) L ltac:(lia)) as B2.
    all: assert (Hm : (r + c) `mod` L = (r + c + 1) `mod` L) by lia.
    all: assert ((r + c + 1) `div` L - (r + c) `div` L <= 0 ∨
                 1 <= (r + c + 1) `div` L - (r + c) `div` L) as [?|?] by lia; nia.
Qed.

Lemma X13_getCellColor_neighbours_differ_witness :
  getCellColor 1 1 [1; 2; 3] = Some 3 ∧
  getCellColor 1 1 [1; 2; 3] ≠ getCellColor 1 2 [1; 2; 3].
Proof.
  destruct (X13_getCellColor_neighbours_differ [1; 2; 3] 1 1) as (_ & _ & Hdiff).
  - lia.
  - lia.
  - destruct Hdiff as [Hright _].
    + repeat (apply NoDup_cons_2;
              [rewrite ?elem_of_cons, elem_of_nil; intros H;
               repeat (destruct H as [H|H]; [discriminate|]); done|]).
      apply NoDup_nil_2.
    + simpl; lia.
    + split; [reflexivity | exact Hright].
Defined.

(** ** More on the generator and the handler *)

(** X14. For a side N >= 1 every difficulty scrambles with at least one
    move; easy never uses more moves than medium or hard; but medium uses no
    more moves than hard only from side 3 on: on the 1 x 1 and 2 x 2 boards
    the medium scramble is longer than the hard one. *)
Theorem X14_scramble_counts_order N :
  1 <= N →
  1 <= scrambleMovesCount N easy ∧
  scrambleMovesCount N easy <= scrambleMovesCount N medium ∧
  scrambleMovesCount N easy <= scrambleMovesCount N hard ∧
  (scrambleMovesCount N medium <= scrambleMovesCount N hard ↔ 3 <= N).
Proof.
  intros HN.
  rewrite scrambleMovesCount_easy, scrambleMovesCount_medium.
  change (scrambleMovesCount N hard) with (N * N).
  pose proof (Z.div_mod (3 * N) 2 ltac:(lia)) as D3.
  pose proof (Z.mod_pos_bound (3 * N) 2 ltac:(lia)) as B3.
  pose proof (Z.div_mod (5 * N) 2 ltac:(lia)) as D5.
  pose proof (Z.mod_pos_bound (5 * N) 2 ltac:(lia)) as B5.
  split; [lia|]. split; [lia|]. split; [nia|].
  split.
  - intros Hle. destruct (decide (N = 1)) as [->|]; [vm_compute in Hle; done|].
    destruct (decide (N = 2)) as [->|]; [vm_compute in Hle; done|]. lia.
  - intros H3. nia.
Qed.

Lemma X14_scramble_counts_order_witness :
  scrambleMovesCount 2 easy <= scrambleMovesCount 2 medium ∧
  ¬ scrambleMovesCount 2 medium <= scrambleMovesCount 2 hard.
Proof.
  destruct (X14_scramble_counts_order 2) as (_ & Hem & _ & Hmh); [lia|].
  split; [exact Hem|]. intros Hle. apply Hmh in Hle. lia.
Defined.

Lemma everyOff_is_allOff N (b : Board) :
  square N b → (everyOff b = true ↔ b = allOff N).
Proof.
  intros Hsq. split.
  - intros Hoff. apply (board_ext N); [done | apply square_allOff |].
    intros i j Hi Hj. rewrite cellOn_allOff. by apply (everyOff_iff N b Hsq).
  - intros ->. apply (everyOff_iff N); [apply square_allOff|].
    intros. apply cellOn_allOff.
Qed.



(** The move of [handleCellClick] wins exactly from the plus pattern of its
    target. *)
Lemma handleCellClick_wins_iff (s s' : AppState) row col :
  hasWon s = false →
  square (boardSize s) (board s) →
  handleCellClick row col s = Ok s' →
  hasWon s' = true ↔
  toggleCellAndNeighbors row col (allOff (boardSize s)) (boardSize s)
    = Ok (board s).
Proof.
  intros Hwon Hsq.
  destruct (move_involutive (boardSize s) row col (board s) Hsq)
    as (b1 & Hmove & Hback).
  destruct (toggleCellAndNeighbors_spec (boardSize s) row col (board s) Hsq)
    as (b1' & Heq & Hsq1 & _).
  rewrite Hmove in Heq. injection Heq as <-.
  unfold handleCellClick. rewrite Hwon, Hmove. simpl. intros [= <-]. simpl. split.
  - intros Hwin.
    assert (Hoff : everyOff b1 = true) by (by destruct (everyOff b1)).
    apply (everyOff_is_allOff _ _ Hsq1) in Hoff. by rewrite <- Hoff.
  - intros Hplus.
    destruct (move_involutive (boardSize s) row col (allOff (boardSize s))
                (square_allOff _)) as (b2 & Hmove2 & Hback2).
    rewrite Hplus in Hmove2. injection Hmove2 as <-.
    rewrite Hmove in Hback2. injection Hback2 as ->.
    assert (everyOff (allOff (boardSize s)) = true) as ->; [|done].
    by apply (everyOff_is_allOff (boardSize s)); [apply square_allOff|].
Qed.

(** X16. One click wins exactly from the plus pattern of its target:
    whenever the handler, with its sound, carries out a click on a game that
    is not won, the game is won afterwards if and only if the board before
    the click was the all-off board with that one move applied. *)
Theorem X16_one_click_win
    (webAudio : SoundSettings → option Z → option (nat * Z) → Result unit)
    audioCtx settings (s s' : AppState) row col :
  hasWon s = false →
  square (boardSize s) (board s) →
  handleCellClickWithSound webAudio audioCtx settings row col s = Ok s' →
  hasWon s' = true ↔
  toggleCellAndNeighbors row col (allOff (boardSize s)) (boardSize s)
    = Ok (board s).
Proof.
  intros Hwon Hsq Hclick.
  apply handleCellClickWithSound_returns in Hclick.
  by apply handleCellClick_wins_iff.
Qed.

Lemma X16_one_click_win_witness :
  ∃ s', handleCellClickWithSound webAudioOk true soundOn 1 1 sessionPlus = Ok s' ∧
        hasWon s' = true.
Proof.
  destruct (handleCellClickWithSound webAudioOk true soundOn 1 1 sessionPlus)
    as [s'|e] eqn:Hclick; [|vm_compute in Hclick; discriminate Hclick].
  exists s'. split; [reflexivity|].
  apply (X16_one_click_win webAudioOk true soundOn sessionPlus s' 1 1).
  - reflexivity.
  - split; [reflexivity | repeat constructor].
  - exact Hclick.
  - reflexivity.
Defined.

(** X17. On a 1 x 1 board the medium scramble is two moves on the one
    cell, which cancel: the generator recurses until the call stack is
    exhausted, whatever its depth, and a reset to size 1 with medium
    difficulty ends in that [RangeError] instead of a new game. *)
Theorem X17_size_1_medium_never_generates {Rng : Type}
    (randomIndex : Z → Rng → Z * Rng) stack g (a : AppHooks) :
  inRangeSource randomIndex →
  createSolvableBoard randomIndex stack 1 medium g = Throw RangeError ∧
  executeReset randomIndex stack (Some 1) (Some medium) a g = Throw RangeError.
Proof.
  intros Hsrc.
  pose proof (createSolvableBoard_1_medium randomIndex stack g Hsrc) as Hgen.
  split; [done|]. unfold executeReset. simpl. by rewrite Hgen.
Qed.

Lemma X17_size_1_medium_never_generates_witness :
  createSolvableBoard lcgIndex 50 1 medium 2024 = Throw RangeError.
Proof.
  apply (X17_size_1_medium_never_generates lcgIndex 50 2024
           {| game := sessionPlus; showResetConfirm := false;
              pendingResetConfig := None |}).
  exact lcgIndex_inRange.
Defined.

(** ** The game stays solvable *)

Lemma generated_board_solvable {Rng : Type} (randomIndex : Z → Rng → Z * Rng)
    stack N d g (b : Board) g' :
  inRangeSource randomIndex →
  createSolvableBoard randomIndex stack N d g = Ok (b, g') →
  solvable N b.
Proof.
  intros Hsrc Hrun.
  pose proof (createSolvableBoard_Ok randomIndex stack N d g b g' Hrun) as (HN & _ & _).
  destruct (createSolvableBoard_returns randomIndex N d stack g b g')
    as (g0 & Honce & _); [lia | done |].
  destruct (scrambleOnce_spec randomIndex N d g0) as (b0 & Heq & Hmoves & _); [lia|].
  simpl in Heq. rewrite Honce in Heq. injection Heq as <- _.
  exists (draws randomIndex N (Z.to_nat (scrambleMovesCount N d)) g0).
  split; [by apply draws_valid|].
  by apply (applyMoves_undo N _ (allOff N)); [apply square_allOff|].
Qed.

Lemma grid_click_keeps_solvable (s s' : AppState) row col :
  square (boardSize s) (board s) →
  0 <= row < boardSize s → 0 <= col < boardSize s →
  solvable (boardSize s) (board s) →
  handleCellClick row col s = Ok s' →
  solvable (boardSize s') (board s').
Proof.
  intros Hsq Hr Hc (ms & Hvalid & Hsolve). unfold handleCellClick.
  destruct (hasWon s); [intros [= <-]; by exists ms|].
  destruct (move_involutive (boardSize s) row col (board s) Hsq)
    as (b1 & Hmove & Hback).
  rewrite Hmove. simpl. intros [= <-]. simpl.
  exists ((row, col) :: ms). split; [by constructor|].
  simpl. by rewrite Hback.
Qed.

(** X18. As long as nothing throws, the game stays solvable.  In every
    state reached from the initial state by a sequence of clicks on the cell
    buttons, reset requests, confirmations and cancellations in which no
    action throws, the board can be turned all off by moves at cells of the
    grid.  (A reset whose generator exhausts the call stack is such a throw:
    the size hook may then have changed under the old board.) *)
Theorem X18_reachable_boards_are_solvable {Rng : Type}
    (randomIndex : Z → Rng → Z * Rng) stack webAudio acts (a0 a : AppHooks) g g0 g' :
  inRangeSource randomIndex →
  initialApp randomIndex stack g = Ok (a0, g0) →
  clicksFromGrid randomIndex stack webAudio acts a0 g0 →
  run randomIndex stack webAudio acts a0 g0 = Ok (a, g') →
  solvable (boardSize (game a)) (board (game a)).
Proof.
  intros Hsrc Hinit Hgrid Hrun.
  assert (H0 : appInvariant a0 ∧ solvable (boardSize (game a0)) (board (game a0))).
  { unfold initialApp in Hinit.
    destruct (createSolvableBoard randomIndex stack 3 medium g) as [[b g1]|e] eqn:Hgen;
      [|done].
    simpl in Hinit. injection Hinit as <- <-. simpl. split.
    - apply createSolvableBoard_Ok in Hgen as (_ & Hsq & Hlit).
      unfold appInvariant. simpl. rewrite Hlit.
      split; [lia|]. do 4 (split; [done|]). split; [done | by intros [? ?]].
    - by eapply generated_board_solvable. }
  clear Hinit. revert a0 g0 H0 Hgrid Hrun.
  induction acts as [|act acts IH]; intros a0 g0 [Hinv Hsolv]; simpl.
  - by intros _ [= <- <-].
  - intros [Hact Hrest].
    destruct (step randomIndex stack webAudio act a0 g0) as [[a1 g1]|e] eqn:Hstep;
      [|done].
    simpl. apply IH; [|done]. split; [by eapply step_keeps_invariant|].
    destruct act as [audioCtx settings row col|newSize newDiff| |]; simpl in Hstep.
    + destruct (handleCellClickWithSound _ _ _ _ _ _) as [s'|e] eqn:Hclick; [|done].
      simpl in Hstep. injection Hstep as <- <-. simpl.
      apply handleCellClickWithSound_returns in Hclick.
      destruct Hinv as (_ & Hsq & _).
      rewrite (gridCells_positions _ _ Hsq) in Hact.
      apply elem_of_positions in Hact as [Hr Hc].
      by apply (grid_click_keeps_solvable (game a0) s' row col).
    + unfold resetGame in Hstep.
      destruct ((moves (game a0) >? 0) && negb (hasWon (game a0))).
      * by injection Hstep as <- <-.
      * apply executeReset_Ok in Hstep as (b & Hgen & ->). simpl.
        by eapply generated_board_solvable.
    + apply executeReset_Ok in Hstep as (b & Hgen & ->). simpl.
      by eapply generated_board_solvable.
    + by injection Hstep as <- <-.
Qed.

Lemma X18_reachable_boards_are_solvable_witness :
  ∃ a0 g0 a g',
    initialApp lcgIndex 4 2024 = Ok (a0, g0) ∧
    run lcgIndex 4 webAudioOk
      [CellClick true soundOn 1 1; ResetGame None (Some hard); ConfirmReset;
       CellClick false soundOn 0 2] a0 g0 = Ok (a, g') ∧
    solvable (boardSize (game a)) (board (game a)).
Proof.
  destruct (initialApp lcgIndex 4 2024) as [[a0 g0]|e] eqn:Hinit;
    [|vm_compute in Hinit; discriminate Hinit].
  destruct (run lcgIndex 4 webAudioOk
              [CellClick true soundOn 1 1; ResetGame None (Some hard); ConfirmReset;
               CellClick false soundOn 0 2] a0 g0) as [[a g']|e] eqn:Hrun.
  - exists a0, g0, a, g'. split; [reflexivity|]. split; [exact Hrun|].
    apply (X18_reachable_boards_are_solvable lcgIndex 4 webAudioOk
             [CellClick true soundOn 1 1; ResetGame None (Some hard); ConfirmReset;
              CellClick false soundOn 0 2] a0 a 2024 g0 g').
    + exact lcgIndex_inRange.
    + exact Hinit.
    + vm_compute in Hinit. injection Hinit as <- <-.
      vm_compute. repeat split; repeat constructor.
    + exact Hrun.
  - exfalso. vm_compute in Hinit. injection Hinit as <- <-.
    vm_compute in Hrun. discriminate Hrun.
Defined.
